(** * pure-random-number: unbiased integers from random bytes

    A shallow embedding of the two revisions of the sampler that the
    repository carries: [src/index.js] (async only, module [Index]) and the
    later listing with [randomSeedNumber], [bytesNeeded] and [toU8]
    (module [Seeded]).  Both share [calculateParameters] verbatim.

    JavaScript numbers are IEEE doubles.  After validation every number the
    sampler touches is an integer, so integers are carried as [Z]; the
    32-bit conversions that the bitwise operators perform and the rounding
    of [+] and [-] beyond 2^53 are written out. *)

From Stdlib Require Import ZArith List Bool Lia String QArith.
From Stdlib.Strings Require Import Byte.
Import ListNotations.

Local Open Scope Z_scope.

(** ** Numbers *)

Module JS.

(** ToInt32: reduce modulo 2^32 into [-2^31, 2^31). *)
Definition to_int32 (x : Z) : Z := (x + 2 ^ 31) mod 2 ^ 32 - 2 ^ 31.

(** ToUint32: reduce modulo 2^32 into [0, 2^32). *)
Definition to_uint32 (x : Z) : Z := x mod 2 ^ 32.

(** [a << n]: both operands through ToInt32 / ToUint32, the count masked
    to five bits, the result again an int32. *)
Definition shl (a n : Z) : Z :=
  to_int32 (Z.shiftl (to_int32 a) (Z.land (to_uint32 n) 31)).

(** [a >>> n]: the left operand through ToUint32. *)
Definition ushr (a n : Z) : Z :=
  Z.shiftr (to_uint32 a) (Z.land (to_uint32 n) 31).

(** [a | b] and [a & b] on int32 operands. *)
Definition or (a b : Z) : Z := to_int32 (Z.lor (to_int32 a) (to_int32 b)).
Definition and (a b : Z) : Z := to_int32 (Z.land (to_int32 a) (to_int32 b)).

(** The double nearest to an integer [x] (ties to even): integers below
    2^53 in magnitude are exact, larger ones keep 53 significant bits.
    Overflow to infinity is out of reach for the operands used here
    (safe integers and int32 values). *)
Definition round (x : Z) : Z :=
  let a := Z.abs x in
  if a <? 2 ^ 53 then x
  else
    let e := Z.log2 a - 52 in
    let q := Z.shiftr a e in
    let r := Z.land a (Z.ones e) in
    let half := 2 ^ (e - 1) in
    let q' := if (half <? r) || ((r =? half) && Z.odd q) then q + 1 else q in
    Z.sgn x * (q' * 2 ^ e).

(** [a + b] and [a - b] on integer-valued doubles. *)
Definition add (a b : Z) : Z := round (a + b).
Definition sub (a b : Z) : Z := round (a - b).

Definition MAX_SAFE_INTEGER : Z := 9007199254740991.

End JS.

(** ** calculateParameters (identical in both revisions) *)

Record params : Type := mkParams
  { bitsNeeded : Z; bytesNeeded : Z; mask : Z }.

(** The body of [while (range > 0) { ... }]; [fuel] bounds the number of
    iterations and [None] means the bound was hit. *)
Fixpoint calculateParameters_loop (fuel : nat) (bits bytes msk range : Z)
  : option params :=
  if 0 <? range then
    match fuel with
    | O => None
    | S fuel' =>
        let bytes' := if bits mod 8 =? 0 then bytes + 1 else bytes in
        let bits' := bits + 1 in
        let msk' := JS.or (JS.shl msk 1) 1 in
        let range' := JS.ushr range 1 in
        calculateParameters_loop fuel' bits' bytes' msk' range'
    end
  else Some (mkParams bits bytes msk).

(** [>>>] leaves at most 31 bits after the first pass, so 33 passes are
    always enough (see [calculateParameters_loop_returns]). *)
Definition calculateParameters_fuel : nat := 33.

Definition calculateParameters_opt (range : Z) : option params :=
  calculateParameters_loop calculateParameters_fuel 0 0 1 range.

(** The [None] case does not occur ([calculateParameters_loop_returns]);
    it stands for the values the variables start with. *)
Definition calculateParameters (range : Z) : params :=
  match calculateParameters_opt range with
  | Some p => p
  | None => mkParams 0 0 1
  end.

(** ** Values, exceptions, buffers *)

(** A JavaScript number: a finite double (carried as the rational it
    denotes), NaN or an infinity. *)
Inductive number : Type :=
| Finite (q : Q)
| NaN
| PosInf
| NegInf.

(** What a caller can pass for a bound: nothing, [null], or a number (the
    documented parameter type). *)
Inductive value : Type :=
| Undefined
| Null
| Num (n : number).

Inductive exn : Type :=
| Error (message : string)
| TypeError (message : string)
| RangeError (message : string).

(** How a call ends: a value, an exception, or the iteration bound of the
    model reached while the [while (true)] loop was still running. *)
Inductive outcome (A : Type) : Type :=
| Return (a : A)
| Throw (e : exn)
| OutOfFuel.
Arguments Return {A} a.
Arguments Throw {A} e.
Arguments OutOfFuel {A}.

Definition bind {A B : Type} (m : outcome A) (k : A -> outcome B) : outcome B :=
  match m with
  | Return a => k a
  | Throw e => Throw e
  | OutOfFuel => OutOfFuel
  end.
Notation "x <- m ;; k" := (bind m (fun x => k))
  (at level 61, m at next level, right associativity).

Module Num.

Definition of_Z (z : Z) : number := Finite (inject_Z z).

(** [n % 1 !== 0]: the remainder is zero exactly on finite integers
    (NaN and the infinities give NaN). *)
Definition rem1_nonzero (n : number) : bool :=
  match n with
  | Finite q => negb (Qnum q mod Zpos (Qden q) =? 0)
  | _ => true
  end.

(** [a < b]; every comparison with NaN is false. *)
Definition lt (a b : number) : bool :=
  match a, b with
  | Finite p, Finite q => Qnum p * QDen q <? Qnum q * QDen p
  | Finite _, PosInf => true
  | NegInf, Finite _ => true
  | NegInf, PosInf => true
  | _, _ => false
  end.

Definition gt (a b : number) : bool := lt b a.

(** The integer an integer-valued finite number denotes. *)
Definition to_Z (n : number) : Z :=
  match n with
  | Finite q => Qnum q / Zpos (Qden q)
  | _ => 0
  end.

(** A default parameter value replaces [undefined] only. *)
Definition default (d : Z) (v : value) : value :=
  match v with
  | Undefined => Num (of_Z d)
  | _ => v
  end.

End Num.

(** [bytes[i]] feeding a bitwise operator: the byte, or 0 for the
    [undefined] read past the end. *)
Definition byte_at (bytes : list byte) (i : Z) : Z :=
  if i <? 0 then 0
  else match nth_error bytes (Z.to_nat i) with
       | Some b => Z.of_N (Byte.to_N b)
       | None => 0
       end.

(** [for (let i = 0; i < bytesNeeded; i++) randomValue |= bytes[i] << (8 * i)],
    with [n] passes left to run. *)
Fixpoint reduce_loop (n : nat) (i : Z) (bytes : list byte) (randomValue : Z) : Z :=
  match n with
  | O => randomValue
  | S n' =>
      reduce_loop n' (i + 1) bytes
        (JS.or randomValue (JS.shl (byte_at bytes i) (8 * i)))
  end.

Definition reduce (bytes : list byte) (bytesNeeded : Z) : Z :=
  reduce_loop (Z.to_nat bytesNeeded) 0 bytes 0.

(** The exact little-endian value of a byte sequence: byte [i] in bits
    [8i, 8i+8). *)
Fixpoint le_value (bytes : list byte) : Z :=
  match bytes with
  | [] => 0
  | b :: rest => Z.of_N (Byte.to_N b) + 256 * le_value rest
  end.

(** ** Byte sources *)

Section Source.

(** The state behind the byte sources (entropy pool, PRNG state). *)
Variable World : Type.

(** A generator callback: asked for [n] bytes, it answers with a
    Uint8Array and a new state.  A callback that throws, or that answers
    with something else, is outside this type. *)
Definition generator : Type := Z -> World -> list byte * World.

(** What can be passed as the [generator] argument. *)
Inductive generator_arg : Type :=
| GenUndefined
| GenNotFunction
| GenFunction (g : generator).

(** [crypto.getRandomValues] filling one cell. *)
Variable getRandomValue : World -> byte * World.

Fixpoint fill (n : nat) (w : World) : list byte * World :=
  match n with
  | O => ([], w)
  | S n' =>
      let (b, w1) := getRandomValue w in
      let (rest, w2) := fill n' w1 in
      (b :: rest, w2)
  end.

(** [randomBytes(n)]: a fresh [Uint8Array(n)] filled by the platform. *)
Definition randomBytes : generator := fun n w => fill (Z.to_nat n) w.

(** The default parameter [generator = randomBytes]. *)
Definition generator_default (gen : generator_arg) : generator_arg :=
  match gen with
  | GenUndefined => GenFunction randomBytes
  | _ => gen
  end.

End Source.
Arguments GenUndefined {World}.
Arguments GenNotFunction {World}.
Arguments GenFunction {World} g.

(** ** Vocabulary of the statements *)

(** Number of significant bits of a non-negative integer. *)
Definition bit_length (x : Z) : Z := if 0 <? x then Z.log2 x + 1 else 0.

(** One pass of the loop of [calculateParameters] on the three results. *)
Definition params_step (p : params) : params :=
  mkParams (bitsNeeded p + 1)
           (if bitsNeeded p mod 8 =? 0 then bytesNeeded p + 1 else bytesNeeded p)
           (JS.or (JS.shl (mask p) 1) 1).

Definition params_after (k : nat) : params := Nat.iter k params_step (mkParams 0 0 1).

(** Number of passes the loop makes on [range]. *)
Definition passes (range : Z) : nat :=
  if 0 <? range then S (Z.to_nat (bit_length (JS.ushr range 1))) else O.

Definition safe (z : Z) : Prop := - JS.MAX_SAFE_INTEGER <= z <= JS.MAX_SAFE_INTEGER.

(** The masked candidate drawn from a buffer. *)
Definition candidate (p : params) (bytes : list byte) : Z :=
  JS.and (reduce bytes (bytesNeeded p)) (mask p).

Section Draws.

Variable World : Type.

(** The generator always hands back at least the bytes asked for. *)
Definition supplies (g : generator World) : Prop :=
  forall n w, n <= Z.of_nat (List.length (fst (g n w))).

(** One of the first [fuel] draws has its candidate within [range]. *)
Fixpoint accepted_within (fuel : nat) (g : generator World) (p : params)
    (range : Z) (w : World) : bool :=
  match fuel with
  | O => false
  | S fuel' =>
      (candidate p (fst (g (bytesNeeded p) w)) <=? range)
      || accepted_within fuel' g p range (snd (g (bytesNeeded p) w))
  end.

(** The states the source goes through when asked for [n] bytes again
    and again. *)
Fixpoint world_after (k : nat) (g : generator World) (n : Z) (w : World) : World :=
  match k with
  | O => w
  | S k' => world_after k' g n (snd (g n w))
  end.

End Draws.
Arguments supplies {World} g.
Arguments accepted_within {World} fuel g p range w.
Arguments world_after {World} k g n w.

(** A source that answers every request with copies of one byte, and the
    platform filling every cell with it. *)
Definition constant_source (b : byte) : generator unit :=
  fun n w => (repeat b (Z.to_nat n), w).

Definition constant_value (b : byte) : unit -> byte * unit := fun w => (b, w).

(** A source that answers every request with the same buffer. *)
Definition fixed_source (bytes : list byte) : generator unit :=
  fun _ w => (bytes, w).

(** A source that runs through a script: its [w]-th answer is the
    requested number of copies of the [w]-th byte of the script (of 0
    once the script is used up). *)
Definition scripted_source (script : list byte) : generator nat :=
  fun n w => (repeat (nth w script x00) (Z.to_nat n), S w).

(** ** src/index.js *)

Module Index.

(** [isSafeInteger(n)]: the file's own check,
    [!(n < -9007199254740991 || n > 9007199254740991)]. *)
Definition isSafeInteger (n : number) : bool :=
  negb (Num.lt n (Num.of_Z (- JS.MAX_SAFE_INTEGER))
        || Num.gt n (Num.of_Z JS.MAX_SAFE_INTEGER)).

Definition msg_min_unsafe : string :=
  "The minimum value must be inbetween MIN_SAFE_INTEGER and MAX_SAFE_INTEGER.".
Definition msg_max_unsafe : string :=
  "The maximum value must be inbetween MIN_SAFE_INTEGER and MAX_SAFE_INTEGER.".

Section WithSource.

Variable World : Type.
Variable getRandomValue : World -> byte * World.

(** The [while (true)] loop of [randomNumber]: one generator call per
    pass, the bytes reduced and masked, the candidate accepted when it
    is at most [range]. *)
Fixpoint randomNumber_loop (fuel : nat) (g : generator World)
    (minimum range bytesNeeded mask : Z) (w : World) : outcome Z * World :=
  match fuel with
  | O => (OutOfFuel, w)
  | S fuel' =>
      let (bytes, w') := g bytesNeeded w in
      let randomValue := reduce bytes bytesNeeded in
      let randomValue := JS.and randomValue mask in
      if randomValue <=? range then (Return (JS.add minimum randomValue), w')
      else randomNumber_loop fuel' g minimum range bytesNeeded mask w'
  end.

Definition randomNumber (fuel : nat) (minimum maximum : value)
    (gen : generator_arg World) (w : World) : outcome Z * World :=
  let minimum := Num.default 1 minimum in
  let maximum := Num.default 6 maximum in
  match generator_default World getRandomValue gen with
  | GenFunction g =>
    match minimum with
    | Num lo =>
      match maximum with
      | Num hi =>
        if Num.rem1_nonzero lo then (Throw (RangeError "MinNotInteger"), w)
        else if Num.rem1_nonzero hi then (Throw (RangeError "MaxNotInteger"), w)
        else if negb (Num.gt hi lo) then (Throw (RangeError "MinHigherThanMax"), w)
        else if negb (isSafeInteger lo) then (Throw (RangeError msg_min_unsafe), w)
        else if negb (isSafeInteger hi) then (Throw (RangeError msg_max_unsafe), w)
        else
          let range := JS.sub (Num.to_Z hi) (Num.to_Z lo) in
          let p := calculateParameters range in
          randomNumber_loop fuel g (Num.to_Z lo) range
            (bytesNeeded p) (mask p) w
      | _ => (Throw (TypeError "MaxNotNumber"), w)
      end
    | _ => (Throw (TypeError "MinNotNumber"), w)
    end
  | _ => (Throw (Error "NoRandomSource"), w)
  end.

End WithSource.

End Index.

(** ** The listing with randomSeedNumber *)

(** What can arrive as a seed: an ArrayBuffer (it has [byteLength] but no
    [length]), a Uint8Array (node Buffers included), another view that
    exposes [.buffer] (its [length], if any, counts elements; [data] is
    the byte window it covers), some other value that has properties but
    is no buffer, or [null] / [undefined], which have none. *)
Inductive buffer : Type :=
| ArrayBuffer (data : list byte)
| Uint8Array (data : list byte)
| BufferView (length : option Z) (data : list byte)
| NotBuffer (length : option Z)
| Nullish.

Module Seeded.

(** [seed.length]; [None] is [undefined].  On [null] and [undefined]
    the read itself throws (see [randomSeedNumber]); no value is read. *)
Definition length_of (o : buffer) : option Z :=
  match o with
  | ArrayBuffer _ => None
  | Uint8Array data => Some (Z.of_nat (List.length data))
  | BufferView len _ => len
  | NotBuffer len => len
  | Nullish => None
  end.

(** The TypeError of reading a property of [null] or [undefined]; the
    wording is the engine's. *)
Definition msg_no_properties : string :=
  "Cannot read properties of null or undefined (reading 'length')".

(** [seed.length < n]: comparing [undefined] gives false. *)
Definition length_lt (o : buffer) (n : Z) : bool :=
  match length_of o with
  | Some len => len <? n
  | None => false
  end.

Definition toU8 (o : buffer) : outcome (list byte) :=
  match o with
  | ArrayBuffer data => Return data
  | Uint8Array data => Return data
  | BufferView _ data => Return data
  | NotBuffer _ => Throw (Error "Expected Uint8Array")
  | Nullish => Throw (Error "Expected Uint8Array")
  end.

(** [Number.isSafeInteger(v)]. *)
Definition Number_isSafeInteger (v : value) : bool :=
  match v with
  | Num (Finite q) =>
      negb (Num.rem1_nonzero (Finite q))
      && (Z.abs (Num.to_Z (Finite q)) <=? JS.MAX_SAFE_INTEGER)
  | _ => false
  end.

(** [!Number.isSafeInteger(v) || v < 0]. *)
Definition not_safe_positive (v : value) : bool :=
  negb (Number_isSafeInteger v)
  || match v with
     | Num n => Num.lt n (Num.of_Z 0)
     | _ => false
     end.

(** Past both checks a bound is a safe integer; this is its value, and
    [maximum > minimum] below compares these values. *)
Definition value_to_Z (v : value) : Z :=
  match v with
  | Num n => Num.to_Z n
  | _ => 0
  end.

Definition randomSeedNumber (seed : buffer) (minimum maximum : value) : outcome Z :=
  let minimum := Num.default 1 minimum in
  let maximum := Num.default 6 maximum in
  if not_safe_positive minimum then Throw (Error "MinNotSafePositiveInteger")
  else if not_safe_positive maximum then Throw (Error "MaxNotSafePositiveInteger")
  else
    let lo := value_to_Z minimum in
    let hi := value_to_Z maximum in
    if negb (lo <? hi) then Throw (RangeError "MinHigherThanMax")
    else
      let range := JS.sub hi lo in
      let p := calculateParameters range in
      match seed with
      | Nullish => Throw (TypeError msg_no_properties)
      | _ =>
        if length_lt seed (bytesNeeded p) then Throw (Error "Seed to short")
        else
          bytes <- toU8 seed ;;
          let randomValue := reduce bytes (bytesNeeded p) in
          let randomValue := JS.and randomValue (mask p) in
          if randomValue <=? range then Return (JS.add lo randomValue)
          else Return (-1)
      end.

Section WithSource.

Variable World : Type.
Variable getRandomValue : World -> byte * World.

(** The [while (true)] loop of [randomNumber]: draw, extract with
    [randomSeedNumber], re-roll on -1. *)
Fixpoint randomNumber_loop (fuel : nat) (g : generator World)
    (minimum maximum : value) (bytesNeeded : Z) (w : World)
  : outcome Z * World :=
  match fuel with
  | O => (OutOfFuel, w)
  | S fuel' =>
      let (bytes, w') := g bytesNeeded w in
      match randomSeedNumber (Uint8Array bytes) minimum maximum with
      | Return n =>
          if n =? -1 then randomNumber_loop fuel' g minimum maximum bytesNeeded w'
          else (Return n, w')
      | Throw e => (Throw e, w')
      | OutOfFuel => (OutOfFuel, w')
      end
  end.

Definition randomNumber (fuel : nat) (minimum maximum : value)
    (gen : generator_arg World) (w : World) : outcome Z * World :=
  let minimum := Num.default 1 minimum in
  let maximum := Num.default 6 maximum in
  match generator_default World getRandomValue gen with
  | GenFunction g =>
    if not_safe_positive minimum then (Throw (Error "MinNotSafePositiveInteger"), w)
    else if not_safe_positive maximum then (Throw (Error "MaxNotSafePositiveInteger"), w)
    else
      let lo := value_to_Z minimum in
      let hi := value_to_Z maximum in
      if negb (lo <? hi) then (Throw (RangeError "MinHigherThanMax"), w)
      else
        let range := JS.sub hi lo in
        let p := calculateParameters range in
        randomNumber_loop fuel g minimum maximum (bytesNeeded p) w
  | _ => (Throw (Error "Expected generator to be a function"), w)
  end.

End WithSource.

(** [bytesNeeded(min, max)], on integer arguments. *)
Definition bytesNeeded (min max : Z) : Z :=
  bytesNeeded (calculateParameters (JS.sub max min)).

End Seeded.

(** The byte holding [z mod 256], and the [k] low bytes of [z], lowest
    first: the buffers used to show which results can be drawn. *)
Definition byte_of_Z (z : Z) : byte :=
  match Byte.of_N (Z.to_N (z mod 256)) with
  | Some b => b
  | None => x00
  end.

Fixpoint le_bytes (k : nat) (z : Z) : list byte :=
  match k with
  | O => []
  | S k' => byte_of_Z z :: le_bytes k' (z / 256)
  end.

(** Arithmetic goals over the safe-integer limit. *)
Ltac safe_lia := unfold safe, JS.MAX_SAFE_INTEGER in *; lia.

(** * Properties *)

(** ** 32-bit conversions *)

Lemma to_int32_small (x : Z) : - 2 ^ 31 <= x < 2 ^ 31 -> JS.to_int32 x = x.
Proof.
  intros H. unfold JS.to_int32.
  rewrite Z.mod_small; lia.
Qed.

Lemma to_int32_range (x : Z) : - 2 ^ 31 <= JS.to_int32 x < 2 ^ 31.
Proof.
  unfold JS.to_int32.
  pose proof (Z.mod_pos_bound (x + 2 ^ 31) (2 ^ 32) eq_refl). lia.
Qed.

Lemma ushr_1 (r : Z) : JS.ushr r 1 = (r mod 2 ^ 32) / 2.
Proof.
  unfold JS.ushr, JS.to_uint32.
  change (Z.land (1 mod 2 ^ 32) 31) with 1.
  rewrite Z.shiftr_div_pow2 by lia. reflexivity.
Qed.

Lemma ushr_1_bound (r : Z) : 0 <= JS.ushr r 1 < 2 ^ 31.
Proof.
  rewrite ushr_1.
  pose proof (Z.mod_pos_bound r (2 ^ 32) eq_refl).
  split.
  - apply Z.div_pos; lia.
  - apply Z.div_lt_upper_bound; lia.
Qed.

(** ** The loop of calculateParameters *)

Lemma bit_length_nonneg (x : Z) : 0 <= bit_length x.
Proof.
  unfold bit_length. destruct (0 <? x); [|lia].
  pose proof (Z.log2_nonneg x). lia.
Qed.

Lemma bit_length_bound (x n : Z) : 0 <= n -> 0 <= x < 2 ^ n -> bit_length x <= n.
Proof.
  intros Hn Hx. unfold bit_length.
  destruct (Z.ltb_spec 0 x) as [Hpos|]; [|lia].
  destruct Hx as [_ Hx]. apply Z.log2_lt_pow2 in Hx; lia.
Qed.

Lemma bit_length_spec (x : Z) : 0 <= x -> x < 2 ^ bit_length x.
Proof.
  intros Hx. unfold bit_length.
  destruct (Z.ltb_spec 0 x) as [Hpos|Hz].
  - pose proof (Z.log2_spec x Hpos). replace (Z.log2 x + 1) with (Z.succ (Z.log2 x)) by lia. lia.
  - simpl. lia.
Qed.

Lemma bit_length_lower (x : Z) : 0 < x -> 2 ^ (bit_length x - 1) <= x.
Proof.
  intros Hpos. unfold bit_length.
  destruct (Z.ltb_spec 0 x); [|lia].
  replace (Z.log2 x + 1 - 1) with (Z.log2 x) by lia.
  apply Z.log2_spec; assumption.
Qed.

Lemma bit_length_half (x : Z) : 0 < x -> bit_length (x / 2) = bit_length x - 1.
Proof.
  intros Hpos. unfold bit_length.
  destruct (Z.ltb_spec 0 x); [|lia].
  change 2 with (2 ^ 1). rewrite <- Z.shiftr_div_pow2 by lia.
  destruct (Z.ltb_spec 0 (Z.shiftr x 1)) as [Hh|Hh].
  - rewrite Z.log2_shiftr by assumption.
    assert (0 < Z.log2 x); [|lia].
    destruct (Z.eq_dec (Z.log2 x) 0) as [E|]; [|pose proof (Z.log2_nonneg x); lia].
    exfalso.
    assert (Z.shiftr x 1 = 0); [|lia].
    apply Z.shiftr_eq_0; lia.
  - assert (E : Z.shiftr x 1 = 0).
    { pose proof (Z.shiftr_nonneg x 1). lia. }
    apply Z.shiftr_eq_0_iff in E. destruct E as [E|[_ E]]; [lia|].
    pose proof (Z.log2_nonneg x). lia.
Qed.

Lemma passes_bit_length (r : Z) :
  0 <= r < 2 ^ 32 -> passes r = Z.to_nat (bit_length r).
Proof.
  intros Hr. unfold passes.
  destruct (Z.ltb_spec 0 r) as [Hpos|Hz].
  - rewrite ushr_1, Z.mod_small by lia.
    rewrite bit_length_half by assumption.
    pose proof (bit_length_nonneg (r / 2)).
    rewrite bit_length_half in H by assumption. lia.
  - replace r with 0 by lia. reflexivity.
Qed.

Lemma passes_bound (range : Z) : (passes range <= 32)%nat.
Proof.
  unfold passes. destruct (0 <? range); [|lia].
  pose proof (ushr_1_bound range).
  pose proof (bit_length_bound (JS.ushr range 1) 31). lia.
Qed.

Lemma calculateParameters_loop_iter (fuel : nat) :
  forall range bits bytes msk,
    (passes range <= fuel)%nat ->
    calculateParameters_loop fuel bits bytes msk range
    = Some (Nat.iter (passes range) params_step (mkParams bits bytes msk)).
Proof.
  induction fuel as [|fuel IH]; intros range bits bytes msk Hfuel.
  - unfold passes in *. simpl.
    destruct (0 <? range); [lia|reflexivity].
  - simpl. unfold passes in Hfuel |- *.
    destruct (Z.ltb_spec 0 range) as [Hpos|Hz]; [|reflexivity].
    pose proof (ushr_1_bound range) as Hb.
    assert (Hp : passes (JS.ushr range 1) = Z.to_nat (bit_length (JS.ushr range 1)))
      by (apply passes_bit_length; lia).
    rewrite IH by lia.
    rewrite Hp, Nat.iter_succ_r. reflexivity.
Qed.

(** The loop always leaves through its exit test within the bound. *)
Lemma calculateParameters_loop_returns (range : Z) :
  calculateParameters_opt range = Some (params_after (passes range)).
Proof.
  unfold calculateParameters_opt, params_after.
  apply calculateParameters_loop_iter.
  pose proof (passes_bound range). unfold calculateParameters_fuel. lia.
Qed.

Lemma calculateParameters_passes (range : Z) :
  calculateParameters range = params_after (passes range).
Proof.
  unfold calculateParameters. now rewrite calculateParameters_loop_returns.
Qed.

(** The three results after [k] passes, for the passes that keep the mask
    below 2^31. *)
Lemma params_after_small (k : nat) :
  (k <= 30)%nat ->
  params_after k
  = mkParams (Z.of_nat k) ((Z.of_nat k + 7) / 8) (2 ^ (Z.of_nat k + 1) - 1).
Proof.
  intros Hk.
  assert (Hall : Forall (fun k => params_after k
             = mkParams (Z.of_nat k) ((Z.of_nat k + 7) / 8) (2 ^ (Z.of_nat k + 1) - 1))
            (seq 0 31)).
  { unfold seq.
    repeat (apply Forall_cons; [vm_compute; reflexivity|]). apply Forall_nil. }
  rewrite Forall_forall in Hall. apply Hall. apply in_seq. lia.
Qed.

(** From 31 passes on the mask has wrapped to -1. *)
Lemma params_after_wrapped (k : nat) :
  (31 <= k <= 32)%nat ->
  params_after k = mkParams (Z.of_nat k) 4 (-1).
Proof.
  intros Hk.
  assert (E : k = 31%nat \/ k = 32%nat) by lia.
  destruct E as [-> | ->]; vm_compute; reflexivity.
Qed.

(** What [calculateParameters] computes on a range below 2^30. *)
Lemma calculateParameters_small (range : Z) :
  0 <= range < 2 ^ 30 ->
  calculateParameters range
  = mkParams (bit_length range) ((bit_length range + 7) / 8)
             (2 ^ (bit_length range + 1) - 1).
Proof.
  intros Hr.
  rewrite calculateParameters_passes, passes_bit_length by lia.
  pose proof (bit_length_nonneg range).
  pose proof (bit_length_bound range 30).
  rewrite params_after_small by lia.
  rewrite Z2Nat.id by lia. reflexivity.
Qed.

Lemma calculateParameters_small_mask (range : Z) :
  0 <= range < 2 ^ 30 ->
  exists n, 0 < n <= 31 /\ mask (calculateParameters range) = Z.ones n
            /\ range < mask (calculateParameters range).
Proof.
  intros Hr. rewrite calculateParameters_small by assumption. simpl.
  pose proof (bit_length_nonneg range).
  pose proof (bit_length_bound range 30).
  pose proof (bit_length_spec range).
  exists (bit_length range + 1). rewrite Z.ones_equiv.
  repeat split; try lia.
  rewrite Z.pow_add_r by lia. lia.
Qed.

(** ** Masking *)

Lemma and_ones (a n : Z) :
  0 < n <= 31 -> JS.and a (Z.ones n) = JS.to_int32 a mod 2 ^ n.
Proof.
  intros Hn. unfold JS.and.
  assert (Hpow : 0 < 2 ^ n <= 2 ^ 31).
  { split; [apply Z.pow_pos_nonneg; lia|apply Z.pow_le_mono_r; lia]. }
  assert (Hones : Z.ones n = 2 ^ n - 1) by (rewrite Z.ones_equiv; lia).
  rewrite (to_int32_small (Z.ones n)) by lia.
  rewrite Z.land_ones by lia.
  pose proof (Z.mod_pos_bound (JS.to_int32 a) (2 ^ n)).
  apply to_int32_small. lia.
Qed.

Lemma and_ones_bound (a n : Z) :
  0 < n <= 31 -> 0 <= JS.and a (Z.ones n) <= Z.ones n.
Proof.
  intros Hn. rewrite and_ones by assumption.
  assert (0 < 2 ^ n) by (apply Z.pow_pos_nonneg; lia).
  pose proof (Z.mod_pos_bound (JS.to_int32 a) (2 ^ n)).
  rewrite Z.ones_equiv. lia.
Qed.

Lemma and_range (a m : Z) : - 2 ^ 31 <= JS.and a m < 2 ^ 31.
Proof. apply to_int32_range. Qed.

(** ** Double arithmetic on integers *)

Lemma round_exact (x : Z) : Z.abs x < 2 ^ 53 -> JS.round x = x.
Proof.
  intros H. unfold JS.round.
  destruct (Z.ltb_spec (Z.abs x) (2 ^ 53)); [reflexivity|lia].
Qed.

Lemma add_exact (a b : Z) : Z.abs (a + b) < 2 ^ 53 -> JS.add a b = a + b.
Proof. apply round_exact. Qed.

Lemma sub_exact (a b : Z) : Z.abs (a - b) < 2 ^ 53 -> JS.sub a b = a - b.
Proof. apply round_exact. Qed.

(** ** Bounds given as integers *)

Lemma rem1_of_Z (z : Z) : Num.rem1_nonzero (Num.of_Z z) = false.
Proof. unfold Num.rem1_nonzero, Num.of_Z. simpl. now rewrite Z.mod_1_r. Qed.

Lemma lt_of_Z (a b : Z) : Num.lt (Num.of_Z a) (Num.of_Z b) = (a <? b).
Proof. unfold Num.lt, Num.of_Z. simpl. now rewrite !Z.mul_1_r. Qed.

Lemma gt_of_Z (a b : Z) : Num.gt (Num.of_Z a) (Num.of_Z b) = (b <? a).
Proof. apply lt_of_Z. Qed.

Lemma to_Z_of_Z (z : Z) : Num.to_Z (Num.of_Z z) = z.
Proof. unfold Num.to_Z, Num.of_Z. simpl. apply Z.div_1_r. Qed.

Lemma isSafeInteger_of_Z (z : Z) :
  Index.isSafeInteger (Num.of_Z z) = true <-> safe z.
Proof.
  unfold Index.isSafeInteger, safe. rewrite gt_of_Z, lt_of_Z.
  unfold JS.MAX_SAFE_INTEGER.
  destruct (Z.ltb_spec z (- 9007199254740991));
    destruct (Z.ltb_spec 9007199254740991 z); simpl; split; intros;
    try discriminate; try reflexivity; lia.
Qed.

Lemma not_safe_positive_of_Z (z : Z) :
  Seeded.not_safe_positive (Num (Num.of_Z z)) = false
  <-> 0 <= z <= JS.MAX_SAFE_INTEGER.
Proof.
  unfold Seeded.not_safe_positive, Seeded.Number_isSafeInteger.
  pose proof (rem1_of_Z z) as Hrem. pose proof (to_Z_of_Z z) as Hto.
  rewrite lt_of_Z. unfold Num.of_Z in *. rewrite Hrem, Hto. simpl negb.
  unfold JS.MAX_SAFE_INTEGER.
  destruct (Z.leb_spec (Z.abs z) 9007199254740991);
    destruct (Z.ltb_spec z 0); simpl; split; intros;
    try discriminate; try reflexivity; lia.
Qed.

(** ** The sampling loop of src/index.js *)

Section IndexLoop.

Variable World : Type.
Variable g : generator World.
Variables (lo range : Z) (p : params).

Hypothesis lo_safe : safe lo.
Hypothesis hi_safe : safe (lo + range).
Hypothesis mask_ones : exists n, 0 < n <= 31 /\ mask p = Z.ones n.

Lemma candidate_nonneg (bytes : list byte) : 0 <= candidate p bytes.
Proof.
  destruct mask_ones as (n & Hn & E). unfold candidate. rewrite E.
  apply and_ones_bound; assumption.
Qed.

Lemma Index_loop_safe (fuel : nat) :
  forall w v w',
    Index.randomNumber_loop World fuel g lo range (bytesNeeded p) (mask p) w
    = (Return v, w') ->
    lo <= v <= lo + range.
Proof.
  induction fuel as [|fuel IH]; intros w v w' H; simpl in H.
  - discriminate.
  - destruct (g (bytesNeeded p) w) as [bytes w1].
    fold (candidate p bytes) in H.
    pose proof (candidate_nonneg bytes) as Hc.
    destruct (Z.leb_spec (candidate p bytes) range) as [Hle|Hgt].
    + inversion H; subst. clear H.
      unfold safe, JS.MAX_SAFE_INTEGER in *.
      rewrite add_exact by lia. lia.
    + eapply IH; eassumption.
Qed.

Lemma Index_loop_accepts (fuel : nat) :
  forall w,
    accepted_within fuel g p range w = true ->
    exists v w',
      Index.randomNumber_loop World fuel g lo range (bytesNeeded p) (mask p) w
      = (Return v, w').
Proof.
  induction fuel as [|fuel IH]; intros w H; simpl in H.
  - discriminate.
  - simpl. destruct (g (bytesNeeded p) w) as [bytes w1]. simpl in H.
    fold (candidate p bytes).
    destruct (candidate p bytes <=? range).
    + eauto.
    + simpl in H. apply IH; assumption.
Qed.

End IndexLoop.

(** With no accepted draw the loop is still running when the bound is
    reached; this needs nothing about the bounds. *)
Lemma Index_loop_rejects (World : Type) (g : generator World) (lo range : Z)
    (p : params) (fuel : nat) :
  forall w,
    accepted_within fuel g p range w = false ->
    Index.randomNumber_loop World fuel g lo range (bytesNeeded p) (mask p) w
    = (OutOfFuel, world_after fuel g (bytesNeeded p) w).
Proof.
  induction fuel as [|fuel IH]; intros w H; simpl in H |- *.
  - reflexivity.
  - destruct (g (bytesNeeded p) w) as [bytes w1]. simpl in H |- *.
    fold (candidate p bytes).
    destruct (candidate p bytes <=? range); simpl in H.
    + discriminate.
    + apply IH; assumption.
Qed.

(** Validation passed: what is left of [Index.randomNumber] is the loop. *)
Lemma Index_randomNumber_valid (World : Type) (grv : World -> byte * World)
    (g : generator World) (fuel : nat) (lo hi : Z) (w : World) :
  safe lo -> safe hi -> lo < hi ->
  Index.randomNumber World grv fuel (Num (Num.of_Z lo)) (Num (Num.of_Z hi))
    (GenFunction g) w
  = let range := JS.sub hi lo in
    let p := calculateParameters range in
    Index.randomNumber_loop World fuel g lo range (bytesNeeded p) (mask p) w.
Proof.
  intros Hlo Hhi Hlt. unfold Index.randomNumber.
  cbn [Num.default generator_default].
  rewrite !rem1_of_Z, gt_of_Z, !to_Z_of_Z.
  apply isSafeInteger_of_Z in Hlo, Hhi. rewrite Hlo, Hhi.
  destruct (Z.ltb_spec lo hi); [|lia]. reflexivity.
Qed.

(** ** randomSeedNumber and the loop around it *)

Section SeededValid.

Variables lo hi : Z.
Hypothesis lo_nonneg : 0 <= lo.
Hypothesis lo_lt_hi : lo < hi.
Hypothesis hi_safe : hi <= JS.MAX_SAFE_INTEGER.

Variable p : params.
Hypothesis p_def : p = calculateParameters (hi - lo).

Lemma Seeded_sub_exact : JS.sub hi lo = hi - lo.
Proof. unfold JS.MAX_SAFE_INTEGER in *. apply sub_exact. lia. Qed.

(** Past validation [randomSeedNumber] is: length check, normalisation,
    one candidate, accept or -1. *)
Lemma randomSeedNumber_valid (seed : buffer) :
  seed <> Nullish ->
  Seeded.randomSeedNumber seed (Num (Num.of_Z lo)) (Num (Num.of_Z hi))
  = if Seeded.length_lt seed (bytesNeeded p) then Throw (Error "Seed to short")
    else
      bytes <- Seeded.toU8 seed ;;
      if candidate p bytes <=? hi - lo then Return (lo + candidate p bytes)
      else Return (-1).
Proof.
  intros Hseed.
  unfold Seeded.randomSeedNumber. cbn [Num.default Seeded.value_to_Z].
  assert (Hlo : Seeded.not_safe_positive (Num (Num.of_Z lo)) = false).
  { apply not_safe_positive_of_Z. unfold JS.MAX_SAFE_INTEGER in *. lia. }
  assert (Hhi : Seeded.not_safe_positive (Num (Num.of_Z hi)) = false).
  { apply not_safe_positive_of_Z. lia. }
  rewrite Hlo, Hhi, !to_Z_of_Z, Seeded_sub_exact.
  destruct (Z.ltb_spec lo hi); [|lia]. cbn [negb]. rewrite <- p_def.
  destruct seed as [data|data|len data|len|];
    [| | | |exfalso; apply Hseed; reflexivity].
  all: match goal with
       | |- context [Seeded.length_lt ?o (bytesNeeded p)] =>
           destruct (Seeded.length_lt o (bytesNeeded p)); [reflexivity|]
       end.
  all: cbn [Seeded.toU8 bind]; try reflexivity.
  all: unfold candidate;
    set (c := JS.and (reduce data (bytesNeeded p)) (mask p));
    assert (Hr : - 2 ^ 31 <= c < 2 ^ 31) by apply and_range;
    destruct (Z.leb_spec c (hi - lo)); [|reflexivity];
    unfold JS.MAX_SAFE_INTEGER in *;
    rewrite add_exact by lia; reflexivity.
Qed.

Section Loop.

Variable World : Type.
Variable g : generator World.

Let loop (fuel : nat) (w : World) :=
  Seeded.randomNumber_loop World fuel g (Num (Num.of_Z lo)) (Num (Num.of_Z hi))
    (bytesNeeded p) w.

(** One pass of the loop, by cases on the draw. *)
Lemma Seeded_loop_step (fuel : nat) (w : World) :
  let bytes := fst (g (bytesNeeded p) w) in
  let w' := snd (g (bytesNeeded p) w) in
  loop (S fuel) w
  = if Z.of_nat (List.length bytes) <? bytesNeeded p
    then (Throw (Error "Seed to short"), w')
    else if (candidate p bytes <=? hi - lo)
            && negb (lo + candidate p bytes =? -1)
         then (Return (lo + candidate p bytes), w')
         else loop fuel w'.
Proof.
  unfold loop. cbn [Seeded.randomNumber_loop].
  destruct (g (bytesNeeded p) w) as [bytes w']. cbn [fst snd].
  rewrite randomSeedNumber_valid by discriminate.
  unfold Seeded.length_lt. cbn [Seeded.length_of Seeded.toU8 bind].
  destruct (Z.of_nat (List.length bytes) <? bytesNeeded p); [reflexivity|].
  destruct (candidate p bytes <=? hi - lo); cbn [andb].
  - destruct (lo + candidate p bytes =? -1); reflexivity.
  - reflexivity.
Qed.

(** Whatever the loop returns is [lo] plus the accepted candidate of
    one of the buffers it drew, and is not -1. *)
Lemma Seeded_loop_returns (fuel : nat) :
  forall w v w',
    loop fuel w = (Return v, w') ->
    v <> -1 /\
    exists k, (k < fuel)%nat /\
      let bytes := fst (g (bytesNeeded p) (world_after k g (bytesNeeded p) w)) in
      candidate p bytes <= hi - lo /\ v = lo + candidate p bytes.
Proof.
  induction fuel as [|fuel IH]; intros w v w' H.
  - discriminate.
  - rewrite Seeded_loop_step in H. cbv zeta in H.
    destruct (Z.of_nat (List.length (fst (g (bytesNeeded p) w))) <? bytesNeeded p);
      [discriminate|].
    destruct (Z.leb_spec (candidate p (fst (g (bytesNeeded p) w))) (hi - lo))
      as [Hle|Hgt]; cbn [andb] in H.
    + destruct (Z.eqb_spec (lo + candidate p (fst (g (bytesNeeded p) w))) (-1))
        as [E|NE]; cbn [negb] in H.
      * apply IH in H. destruct H as (Hv & k & Hk & Hc).
        split; [assumption|]. exists (S k). split; [lia|exact Hc].
      * inversion H; subst. split; [assumption|].
        exists O. split; [lia|]. cbn [world_after]. split; [assumption|reflexivity].
    + apply IH in H. destruct H as (Hv & k & Hk & Hc).
      split; [assumption|]. exists (S k). split; [lia|exact Hc].
Qed.

Hypothesis range_small : hi - lo < 2 ^ 30.

Lemma Seeded_candidate_nonneg (bytes : list byte) : 0 <= candidate p bytes.
Proof.
  destruct (calculateParameters_small_mask (hi - lo)) as (n & Hn & E & _); [lia|].
  unfold candidate. rewrite <- p_def in E. rewrite E. apply and_ones_bound; assumption.
Qed.

Lemma Seeded_loop_safe (fuel : nat) (w : World) (v : Z) (w' : World) :
  loop fuel w = (Return v, w') -> lo <= v <= hi.
Proof.
  intros H. apply Seeded_loop_returns in H.
  destruct H as (_ & k & _ & Hc & ->).
  pose proof (Seeded_candidate_nonneg
    (fst (g (bytesNeeded p) (world_after k g (bytesNeeded p) w)))).
  cbv zeta in Hc. lia.
Qed.

Hypothesis g_supplies : supplies g.

Lemma Seeded_loop_accepts (fuel : nat) :
  forall w,
    accepted_within fuel g p (hi - lo) w = true ->
    exists v w', loop fuel w = (Return v, w').
Proof.
  induction fuel as [|fuel IH]; intros w H.
  - discriminate.
  - rewrite Seeded_loop_step. cbv zeta. cbn [accepted_within] in H.
    pose proof (g_supplies (bytesNeeded p) w) as Hlen.
    destruct (Z.ltb_spec (Z.of_nat (List.length (fst (g (bytesNeeded p) w))))
                (bytesNeeded p)); [lia|].
    pose proof (Seeded_candidate_nonneg (fst (g (bytesNeeded p) w))) as Hc.
    destruct (candidate p (fst (g (bytesNeeded p) w)) <=? hi - lo);
      cbn [andb orb] in H |- *.
    + destruct (Z.eqb_spec (lo + candidate p (fst (g (bytesNeeded p) w))) (-1));
        [lia|]. cbn [negb]. eauto.
    + apply IH; assumption.
Qed.

End Loop.

Lemma Seeded_randomNumber_valid (World : Type) (grv : World -> byte * World)
    (g : generator World) (fuel : nat) (w : World) :
  Seeded.randomNumber World grv fuel (Num (Num.of_Z lo)) (Num (Num.of_Z hi))
    (GenFunction g) w
  = Seeded.randomNumber_loop World fuel g (Num (Num.of_Z lo)) (Num (Num.of_Z hi))
      (bytesNeeded p) w.
Proof.
  unfold Seeded.randomNumber.
  cbn [Num.default generator_default Seeded.value_to_Z].
  assert (Hlo : Seeded.not_safe_positive (Num (Num.of_Z lo)) = false).
  { apply not_safe_positive_of_Z. unfold JS.MAX_SAFE_INTEGER in *. lia. }
  assert (Hhi : Seeded.not_safe_positive (Num (Num.of_Z hi)) = false).
  { apply not_safe_positive_of_Z. lia. }
  rewrite Hlo, Hhi, !to_Z_of_Z, Seeded_sub_exact.
  destruct (Z.ltb_spec lo hi); [|lia]. cbn [negb]. rewrite <- p_def. reflexivity.
Qed.

End SeededValid.

(** Below 2^32 the bit and byte counts are the minimal ones; only the
    mask is off. *)
Lemma calculateParameters_bits_bytes (range : Z) :
  0 <= range < 2 ^ 32 ->
  bitsNeeded (calculateParameters range) = bit_length range
  /\ bytesNeeded (calculateParameters range) = (bit_length range + 7) / 8.
Proof.
  intros Hr.
  rewrite calculateParameters_passes, passes_bit_length by assumption.
  pose proof (bit_length_nonneg range) as H0.
  pose proof (bit_length_bound range 32) as H32.
  destruct (Z_le_gt_dec (bit_length range) 30) as [Hs|Hl].
  - rewrite params_after_small by lia. cbn [bitsNeeded bytesNeeded].
    rewrite Z2Nat.id by lia. split; reflexivity.
  - rewrite params_after_wrapped by lia. cbn [bitsNeeded bytesNeeded].
    rewrite Z2Nat.id by lia. split; [reflexivity|].
    assert (E : bit_length range = 31 \/ bit_length range = 32) by lia.
    destruct E as [-> | ->]; reflexivity.
Qed.

(** ** Where the reduction is exact *)

Lemma lor_disjoint (a m n : Z) :
  0 <= n -> 0 <= a < 2 ^ n -> Z.lor a (m * 2 ^ n) = a + m * 2 ^ n.
Proof.
  intros Hn Ha.
  enough (E : Z.land a (m * 2 ^ n) = 0)
    by (pose proof (Z.add_lor_land a (m * 2 ^ n)); lia).
  apply Z.bits_inj'. intros j Hj.
  rewrite Z.land_spec, Z.bits_0.
  destruct (Z.lt_ge_cases j n) as [Hlt|Hge].
  - rewrite Z.mul_pow2_bits_low by lia. apply andb_false_r.
  - destruct (Z.eq_dec a 0) as [->|Hnz].
    + rewrite Z.bits_0. reflexivity.
    + rewrite (Z.bits_above_log2 a j); [reflexivity|lia|].
      assert (Z.log2 a < n) by (apply Z.log2_lt_pow2; lia). lia.
Qed.

Lemma to_int32_idem (x : Z) : JS.to_int32 (JS.to_int32 x) = JS.to_int32 x.
Proof. apply to_int32_small, to_int32_range. Qed.

Lemma to_int32_eq (x : Z) : JS.to_int32 x = x - 2 ^ 32 * ((x + 2 ^ 31) / 2 ^ 32).
Proof.
  unfold JS.to_int32. rewrite Z.mod_eq by lia. lia.
Qed.

Lemma to_int32_shift (x q : Z) : JS.to_int32 (x - 2 ^ 32 * q) = JS.to_int32 x.
Proof.
  unfold JS.to_int32.
  replace (x - 2 ^ 32 * q + 2 ^ 31) with (x + 2 ^ 31 + (- q) * 2 ^ 32) by lia.
  now rewrite Z.mod_add by lia.
Qed.

Lemma byte_range (b : byte) : 0 <= Z.of_N (Byte.to_N b) < 256.
Proof. destruct b; vm_compute; split; congruence. Qed.

(** One pass of the reduction on a value that fills the bytes below
    position [i]: the sum, brought back into int32. *)
Lemma reduce_step (i v b : Z) :
  0 <= i <= 3 -> 0 <= v < 2 ^ (8 * i) -> 0 <= b < 256 ->
  JS.or (JS.to_int32 v) (JS.shl b (8 * i)) = JS.to_int32 (v + b * 2 ^ (8 * i)).
Proof.
  intros Hi Hv Hb.
  assert (Hpow : 2 ^ (8 * i) <= 2 ^ 24) by (apply Z.pow_le_mono_r; lia).
  assert (Hcount : Z.land (JS.to_uint32 (8 * i)) 31 = 8 * i).
  { assert (E : i = 0 \/ i = 1 \/ i = 2 \/ i = 3) by lia.
    destruct E as [->|[->|[->| ->]]]; reflexivity. }
  unfold JS.or, JS.shl. rewrite Hcount.
  rewrite !to_int32_idem.
  rewrite (to_int32_small b) by lia.
  rewrite (to_int32_small v) by lia.
  rewrite Z.shiftl_mul_pow2 by lia.
  rewrite (to_int32_eq (b * 2 ^ (8 * i))).
  set (q := (b * 2 ^ (8 * i) + 2 ^ 31) / 2 ^ 32).
  assert (Hsplit : 2 ^ 32 = 2 ^ (32 - 8 * i) * 2 ^ (8 * i)).
  { rewrite <- Z.pow_add_r by lia. f_equal. lia. }
  replace (b * 2 ^ (8 * i) - 2 ^ 32 * q)
    with ((b - 2 ^ (32 - 8 * i) * q) * 2 ^ (8 * i)) by (rewrite Hsplit; ring).
  rewrite lor_disjoint by (assumption || lia).
  replace (v + (b - 2 ^ (32 - 8 * i) * q) * 2 ^ (8 * i))
    with (v + b * 2 ^ (8 * i) - 2 ^ 32 * q) by (rewrite Hsplit; ring).
  apply to_int32_shift.
Qed.

Lemma le_value_app (pre suf : list byte) :
  le_value (pre ++ suf)
  = le_value pre + le_value suf * 2 ^ (8 * Z.of_nat (List.length pre)).
Proof.
  induction pre as [|b pre IH].
  - cbn [app le_value List.length]. change (2 ^ (8 * Z.of_nat 0)) with 1. lia.
  - cbn [app le_value List.length]. rewrite IH.
    replace (8 * Z.of_nat (S (List.length pre))) with (8 + 8 * Z.of_nat (List.length pre)) by lia.
    rewrite Z.pow_add_r by lia. change (2 ^ 8) with 256. ring.
Qed.

Lemma le_value_bound (bytes : list byte) :
  0 <= le_value bytes < 2 ^ (8 * Z.of_nat (List.length bytes)).
Proof.
  induction bytes as [|b bytes IH].
  - cbn. lia.
  - cbn [le_value List.length].
    replace (8 * Z.of_nat (S (List.length bytes))) with (8 + 8 * Z.of_nat (List.length bytes)) by lia.
    rewrite Z.pow_add_r by lia. change (2 ^ 8) with 256.
    pose proof (byte_range b). lia.
Qed.

Lemma byte_at_middle (pre suf : list byte) (b : byte) :
  byte_at (pre ++ b :: suf) (Z.of_nat (List.length pre)) = Z.of_N (Byte.to_N b).
Proof.
  unfold byte_at.
  destruct (Z.ltb_spec (Z.of_nat (List.length pre)) 0); [lia|].
  rewrite Nat2Z.id, nth_error_app2 by lia.
  rewrite Nat.sub_diag. reflexivity.
Qed.

Lemma reduce_loop_le_value (suf : list byte) :
  forall pre,
    (List.length pre + List.length suf <= 4)%nat ->
    reduce_loop (List.length suf) (Z.of_nat (List.length pre)) (pre ++ suf)
      (JS.to_int32 (le_value pre))
    = JS.to_int32 (le_value (pre ++ suf)).
Proof.
  induction suf as [|b suf IH]; intros pre Hlen.
  - cbn [reduce_loop List.length]. now rewrite app_nil_r.
  - cbn [List.length] in Hlen. cbn [reduce_loop List.length].
    rewrite byte_at_middle.
    rewrite reduce_step by (try apply le_value_bound; try apply byte_range; lia).
    replace (pre ++ b :: suf) with ((pre ++ [b]) ++ suf) by (now rewrite <- app_assoc).
    replace (Z.of_nat (List.length pre) + 1) with (Z.of_nat (List.length (pre ++ [b])))
      by (rewrite length_app; cbn [List.length]; lia).
    replace (le_value pre + Z.of_N (Byte.to_N b) * 2 ^ (8 * Z.of_nat (List.length pre)))
      with (le_value (pre ++ [b])).
    + apply IH. rewrite length_app. cbn [List.length]. lia.
    + rewrite le_value_app. cbn [le_value]. lia.
Qed.

(** On a buffer of at most four bytes the reduction is the little-endian
    value brought into int32; up to three bytes nothing is lost. *)
Lemma reduce_le_value (bytes : list byte) :
  (List.length bytes <= 4)%nat ->
  reduce bytes (Z.of_nat (List.length bytes)) = JS.to_int32 (le_value bytes).
Proof.
  intros Hlen. unfold reduce. rewrite Nat2Z.id.
  apply (reduce_loop_le_value bytes []). cbn [List.length]. lia.
Qed.

Lemma reduce_exact_up_to_three_bytes (bytes : list byte) :
  (List.length bytes <= 3)%nat ->
  reduce bytes (Z.of_nat (List.length bytes)) = le_value bytes.
Proof.
  intros Hlen. rewrite reduce_le_value by lia.
  apply to_int32_small.
  pose proof (le_value_bound bytes) as Hb.
  assert (2 ^ (8 * Z.of_nat (List.length bytes)) <= 2 ^ 24)
    by (apply Z.pow_le_mono_r; lia).
  lia.
Qed.

(** ** The candidate read off the bytes *)

Lemma byte_at_firstn (k : nat) (bytes : list byte) (i : Z) :
  0 <= i < Z.of_nat k -> byte_at (firstn k bytes) i = byte_at bytes i.
Proof.
  intros Hi. unfold byte_at.
  destruct (Z.ltb_spec i 0); [lia|].
  rewrite nth_error_firstn.
  destruct (Nat.ltb_spec (Z.to_nat i) k); [reflexivity|lia].
Qed.

Lemma reduce_loop_ext (b1 b2 : list byte) (n : nat) :
  forall i rv,
    (forall j, i <= j < i + Z.of_nat n -> byte_at b1 j = byte_at b2 j) ->
    reduce_loop n i b1 rv = reduce_loop n i b2 rv.
Proof.
  induction n as [|n IH]; intros i rv H.
  - reflexivity.
  - cbn [reduce_loop]. rewrite (H i) by lia.
    apply IH. intros j Hj. apply H. lia.
Qed.

Lemma reduce_firstn (b1 b2 : list byte) (k : Z) :
  firstn (Z.to_nat k) b1 = firstn (Z.to_nat k) b2 ->
  reduce b1 k = reduce b2 k.
Proof.
  intros H. unfold reduce. apply reduce_loop_ext. intros j Hj.
  rewrite <- (byte_at_firstn (Z.to_nat k) b1), <- (byte_at_firstn (Z.to_nat k) b2) by lia.
  now rewrite H.
Qed.

Lemma to_int32_mod (x n : Z) :
  0 <= n <= 32 -> JS.to_int32 x mod 2 ^ n = x mod 2 ^ n.
Proof.
  intros Hn. rewrite to_int32_eq.
  assert (Hsplit : 2 ^ 32 = 2 ^ (32 - n) * 2 ^ n).
  { rewrite <- Z.pow_add_r by lia. f_equal. lia. }
  assert (0 < 2 ^ n) by (apply Z.pow_pos_nonneg; lia).
  replace (x - 2 ^ 32 * ((x + 2 ^ 31) / 2 ^ 32))
    with (x + (- (2 ^ (32 - n) * ((x + 2 ^ 31) / 2 ^ 32))) * 2 ^ n)
    by (rewrite Hsplit; ring).
  apply Z.mod_add. lia.
Qed.

Lemma reduce_firstn_self (bytes : list byte) (k : Z) :
  reduce bytes k = reduce (firstn (Z.to_nat k) bytes) k.
Proof.
  apply reduce_firstn. now rewrite firstn_firstn, Nat.min_id.
Qed.

(** For a span below 2^30 the candidate is the little-endian value of the
    first [bytesNeeded] bytes, cut to one bit more than the span needs. *)
Lemma candidate_le_value (range : Z) (bytes : list byte) :
  0 <= range < 2 ^ 30 ->
  bytesNeeded (calculateParameters range) <= Z.of_nat (List.length bytes) ->
  candidate (calculateParameters range) bytes
  = le_value (firstn (Z.to_nat (bytesNeeded (calculateParameters range))) bytes)
    mod 2 ^ (bitsNeeded (calculateParameters range) + 1).
Proof.
  intros Hr Hlen. unfold candidate.
  rewrite reduce_firstn_self.
  rewrite calculateParameters_small in * by assumption.
  cbn [bitsNeeded bytesNeeded mask] in *.
  pose proof (bit_length_nonneg range) as Hnn.
  pose proof (bit_length_bound range 30) as Hle.
  set (k := (bit_length range + 7) / 8) in *.
  assert (Hk : 0 <= k <= 4).
  { unfold k. pose proof (Z.div_mod (bit_length range + 7) 8).
    pose proof (Z.mod_pos_bound (bit_length range + 7) 8). lia. }
  set (pre := firstn (Z.to_nat k) bytes).
  assert (Hpre : Z.of_nat (List.length pre) = k).
  { unfold pre. rewrite length_firstn. lia. }
  rewrite <- Hpre at 1. rewrite reduce_le_value by lia.
  replace (2 ^ (bit_length range + 1) - 1) with (Z.ones (bit_length range + 1))
    by (rewrite Z.ones_equiv; lia).
  rewrite and_ones by lia.
  rewrite to_int32_idem. apply to_int32_mod. lia.
Qed.

(** * The claims *)

(** ** Parameters *)

(** C2. The mask is one bit wider than the span needs: already for
    size 2 it is 7, which is not below 2 * (2 + 1); and from size 2^30 on
    it has wrapped to -1, which is below the size. *)
Theorem calculateParameters_mask_bounds_fail :
  mask (calculateParameters 2) = 7
  /\ 2 * (2 + 1) <= mask (calculateParameters 2)
  /\ mask (calculateParameters (2 ^ 30)) = -1
  /\ mask (calculateParameters (2 ^ 30)) < 2 ^ 30.
Proof.
  assert (E2 : mask (calculateParameters 2) = 7) by (vm_compute; reflexivity).
  assert (E30 : mask (calculateParameters (2 ^ 30)) = -1) by (vm_compute; reflexivity).
  rewrite E2, E30. repeat split; lia.
Qed.

(** C3. For size 1 the result is one bit, one byte and mask 3, above
    2^1 - 1; for size 2^32 the shift through 32 bits leaves one bit, far
    fewer than the size needs; for size 0 it is zero bits and zero bytes,
    with mask 1. *)
Theorem calculateParameters_mask_one_bit_wider :
  calculateParameters 1 = mkParams 1 1 3
  /\ 2 ^ bitsNeeded (calculateParameters 1) - 1 < mask (calculateParameters 1)
  /\ calculateParameters (2 ^ 32) = mkParams 1 1 3
  /\ 2 ^ bitsNeeded (calculateParameters (2 ^ 32)) - 1 < 2 ^ 32
  /\ calculateParameters 0 = mkParams 0 0 1.
Proof.
  assert (E1 : calculateParameters 1 = mkParams 1 1 3) by (vm_compute; reflexivity).
  assert (E32 : calculateParameters (2 ^ 32) = mkParams 1 1 3) by (vm_compute; reflexivity).
  assert (E0 : calculateParameters 0 = mkParams 0 0 1) by (vm_compute; reflexivity).
  rewrite E1, E32, E0. cbn [mask bitsNeeded].
  repeat split; try reflexivity; lia.
Qed.

(** ** Reduction of a buffer *)

(** C4. With four bytes (a span of 2^24 already needs four) and the top
    bit of the last byte set, the reduction is the negative int32
    -2147483648 where the little-endian value is 2147483648. *)
Theorem reduce_wraps_at_four_bytes :
  bytesNeeded (calculateParameters (2 ^ 24)) = 4
  /\ reduce [x00; x00; x00; x80] 4 = -2147483648
  /\ le_value [x00; x00; x00; x80] = 2147483648.
Proof. repeat split; vm_compute; reflexivity. Qed.

(** What the wrapped reduction and mask do to the result: with a span of
    2^30 and the buffer above, both revisions return a value far below
    the minimum. *)
Lemma randomNumber_leaves_range :
  Index.randomNumber unit (constant_value x00) 1
    (Num (Num.of_Z 0)) (Num (Num.of_Z (2 ^ 30)))
    (GenFunction (fixed_source [x00; x00; x00; x80])) tt
  = (Return (-2147483648), tt)
  /\ Seeded.randomNumber unit (constant_value x00) 1
       (Num (Num.of_Z 0)) (Num (Num.of_Z (2 ^ 30)))
       (GenFunction (fixed_source [x00; x00; x00; x80])) tt
     = (Return (-2147483648), tt).
Proof. split; vm_compute; reflexivity. Qed.

(** ** randomSeedNumber *)

(** On valid bounds and a seed that passes the length check, the result
    is decided by the one candidate. *)
Lemma randomSeedNumber_result (seed : buffer) (bytes : list byte) (lo hi : Z) :
  0 <= lo -> lo < hi -> hi <= JS.MAX_SAFE_INTEGER ->
  Seeded.length_lt seed (bytesNeeded (calculateParameters (hi - lo))) = false ->
  Seeded.toU8 seed = Return bytes ->
  Seeded.randomSeedNumber seed (Num (Num.of_Z lo)) (Num (Num.of_Z hi))
  = Return (if candidate (calculateParameters (hi - lo)) bytes <=? hi - lo
            then lo + candidate (calculateParameters (hi - lo)) bytes
            else -1).
Proof.
  intros Hlo Hlt Hhi Hlen Hu8.
  rewrite (randomSeedNumber_valid lo hi Hlo Hlt Hhi _ eq_refl)
    by (intros E; rewrite E in Hu8; discriminate).
  rewrite Hlen, Hu8. cbn [bind].
  destruct (candidate (calculateParameters (hi - lo)) bytes <=? hi - lo); reflexivity.
Qed.

(** *** The masked value *)

Lemma reduce_loop_int32 (bytes : list byte) (n : nat) :
  forall i rv,
    - 2 ^ 31 <= rv < 2 ^ 31 ->
    - 2 ^ 31 <= reduce_loop n i bytes rv < 2 ^ 31.
Proof.
  induction n as [|n IH]; intros i rv Hrv; cbn [reduce_loop].
  - assumption.
  - apply IH. apply to_int32_range.
Qed.

Lemma reduce_int32 (bytes : list byte) (k : Z) :
  - 2 ^ 31 <= reduce bytes k < 2 ^ 31.
Proof. apply reduce_loop_int32. lia. Qed.

(** The mask is a run of low bits, or -1 once it has wrapped. *)
Lemma mask_shape (range : Z) :
  mask (calculateParameters range) = -1
  \/ exists n, 0 < n <= 31 /\ mask (calculateParameters range) = Z.ones n.
Proof.
  rewrite calculateParameters_passes.
  pose proof (passes_bound range) as Hb.
  destruct (Nat.le_gt_cases (passes range) 30) as [Hs|Hl].
  - right. rewrite params_after_small by assumption. cbn [mask].
    exists (Z.of_nat (passes range) + 1). split; [lia|].
    rewrite Z.ones_equiv. lia.
  - left. rewrite params_after_wrapped by lia. reflexivity.
Qed.

(** On an int32 value, [&] with the mask is the bitwise and of the two
    integers. *)
Lemma and_mask_land (range a : Z) :
  - 2 ^ 31 <= a < 2 ^ 31 ->
  JS.and a (mask (calculateParameters range)) = Z.land a (mask (calculateParameters range)).
Proof.
  intros Ha.
  destruct (mask_shape range) as [E|(n & Hn & E)]; rewrite E.
  - unfold JS.and. rewrite (to_int32_small a) by assumption.
    change (JS.to_int32 (-1)) with (-1).
    rewrite Z.land_m1_r. apply to_int32_small. assumption.
  - rewrite and_ones by assumption.
    rewrite (to_int32_small a) by assumption.
    rewrite Z.land_ones by lia. reflexivity.
Qed.

Lemma candidate_land (range : Z) (bytes : list byte) :
  candidate (calculateParameters range) bytes
  = Z.land (reduce bytes (bytesNeeded (calculateParameters range)))
           (mask (calculateParameters range)).
Proof. unfold candidate. apply and_mask_land, reduce_int32. Qed.

(** C5. On valid bounds and a seed that passes the length check,
    [randomSeedNumber] makes one pass and returns normally: with the
    masked value the bitwise and of the reduced bytes and the mask, it
    returns the minimum plus the masked value when that is at most the
    span, and -1 when it is above.  For a span below 2^30 the masked value
    is the little-endian value of the first [bytesNeeded] bytes cut to
    [bitsNeeded + 1] bits. *)
Theorem randomSeedNumber_one_shot (seed : buffer) (bytes : list byte) (lo hi : Z) :
  0 <= lo -> lo < hi -> hi <= JS.MAX_SAFE_INTEGER ->
  Seeded.length_lt seed (bytesNeeded (calculateParameters (hi - lo))) = false ->
  Seeded.toU8 seed = Return bytes ->
  let p := calculateParameters (hi - lo) in
  let masked := Z.land (reduce bytes (bytesNeeded p)) (mask p) in
  (masked <= hi - lo ->
   Seeded.randomSeedNumber seed (Num (Num.of_Z lo)) (Num (Num.of_Z hi))
   = Return (lo + masked))
  /\ (hi - lo < masked ->
      Seeded.randomSeedNumber seed (Num (Num.of_Z lo)) (Num (Num.of_Z hi))
      = Return (-1))
  /\ (hi - lo < 2 ^ 30 -> bytesNeeded p <= Z.of_nat (List.length bytes) ->
      masked = le_value (firstn (Z.to_nat (bytesNeeded p)) bytes)
               mod 2 ^ (bitsNeeded p + 1)).
Proof.
  intros Hlo Hlt Hhi Hlen Hu8 p masked.
  assert (Hm : masked = candidate p bytes)
    by (unfold masked, p; symmetry; apply candidate_land).
  rewrite (randomSeedNumber_result seed bytes lo hi) by assumption.
  fold p. rewrite <- Hm.
  split; [|split].
  - intros Hc. destruct (Z.leb_spec masked (hi - lo)); [reflexivity|lia].
  - intros Hc. destruct (Z.leb_spec masked (hi - lo)); [lia|reflexivity].
  - intros Hsmall Hbytes. rewrite Hm. apply candidate_le_value; [lia|assumption].
Qed.

(** The seed [0x13] = 19 for the range 1..6 (mask 15): 19 & 15 = 3 is
    within the span 5, so the result is 4; the seed [0x0b] = 11 is not,
    so the result is -1. *)
Lemma randomSeedNumber_one_shot_witness :
  (Seeded.randomSeedNumber (Uint8Array [x13]) (Num (Num.of_Z 1)) (Num (Num.of_Z 6))
   = Return (1 + 3)
   /\ Z.land (reduce [x13] (bytesNeeded (calculateParameters (6 - 1))))
             (mask (calculateParameters (6 - 1)))
      = le_value (firstn (Z.to_nat (bytesNeeded (calculateParameters (6 - 1)))) [x13])
        mod 2 ^ (bitsNeeded (calculateParameters (6 - 1)) + 1))
  /\ Seeded.randomSeedNumber (Uint8Array [x0b]) (Num (Num.of_Z 1)) (Num (Num.of_Z 6))
     = Return (-1).
Proof.
  assert (N : 0 <= 1) by lia.
  assert (L : 1 < 6) by lia.
  assert (M : 6 <= JS.MAX_SAFE_INTEGER) by safe_lia.
  pose proof (randomSeedNumber_one_shot (Uint8Array [x13]) [x13] 1 6 N L M eq_refl eq_refl)
    as (A & _ & C).
  pose proof (randomSeedNumber_one_shot (Uint8Array [x0b]) [x0b] 1 6 N L M eq_refl eq_refl)
    as (_ & B & _).
  split; [split|].
  - apply A. vm_compute. discriminate.
  - apply C; [lia|vm_compute; discriminate].
  - apply B. vm_compute. reflexivity.
Defined.

(** A seed that has a [length], and one below [bytesNeeded], makes
    [randomSeedNumber] throw 'Seed to short': an exception, not the -1
    return, and nothing is read from the seed. *)
Lemma randomSeedNumber_seed_too_short (seed : buffer) (n lo hi : Z) :
  0 <= lo -> lo < hi -> hi <= JS.MAX_SAFE_INTEGER ->
  Seeded.length_of seed = Some n ->
  n < bytesNeeded (calculateParameters (hi - lo)) ->
  Seeded.randomSeedNumber seed (Num (Num.of_Z lo)) (Num (Num.of_Z hi))
  = Throw (Error "Seed to short")
  /\ Seeded.randomSeedNumber seed (Num (Num.of_Z lo)) (Num (Num.of_Z hi))
     <> Return (-1).
Proof.
  intros Hlo Hlt Hhi Hlen Hn.
  assert (E : Seeded.randomSeedNumber seed (Num (Num.of_Z lo)) (Num (Num.of_Z hi))
              = Throw (Error "Seed to short")).
  { rewrite (randomSeedNumber_valid lo hi Hlo Hlt Hhi _ eq_refl)
      by (intros E; rewrite E in Hlen; discriminate).
    unfold Seeded.length_lt. rewrite Hlen.
    destruct (Z.ltb_spec n (bytesNeeded (calculateParameters (hi - lo)))); [reflexivity|lia]. }
  rewrite E. split; [reflexivity|discriminate].
Qed.

Lemma randomSeedNumber_seed_too_short_witness :
  Seeded.randomSeedNumber (Uint8Array []) (Num (Num.of_Z 1)) (Num (Num.of_Z 6))
  = Throw (Error "Seed to short")
  /\ Seeded.randomSeedNumber (Uint8Array []) (Num (Num.of_Z 1)) (Num (Num.of_Z 6))
     <> Return (-1).
Proof.
  apply (randomSeedNumber_seed_too_short (Uint8Array []) 0 1 6).
  - lia.
  - lia.
  - safe_lia.
  - reflexivity.
  - vm_compute. reflexivity.
Defined.

(** C8. The length is tested on the seed as passed, before [toU8]
    normalises it, and an ArrayBuffer has no [length]: the empty
    ArrayBuffer, too short for the one byte the range 1..6 needs, is not
    turned away but read as zeros and gives 1, where the empty Uint8Array
    is turned away with 'Seed to short'. *)
Theorem randomSeedNumber_ArrayBuffer_unchecked :
  bytesNeeded (calculateParameters (6 - 1)) = 1
  /\ Seeded.toU8 (ArrayBuffer []) = Return []
  /\ Seeded.randomSeedNumber (ArrayBuffer []) (Num (Num.of_Z 1)) (Num (Num.of_Z 6))
     = Return 1
  /\ Seeded.randomSeedNumber (Uint8Array []) (Num (Num.of_Z 1)) (Num (Num.of_Z 6))
     = Throw (Error "Seed to short").
Proof. repeat split; vm_compute; reflexivity. Qed.

(** *** Only the first bytesNeeded bytes are read *)

(** C9. Two seeds that pass the length check and agree on their first
    [bytesNeeded] bytes give the same result, integer or -1. *)
Theorem randomSeedNumber_prefix_only (s1 s2 : buffer) (b1 b2 : list byte) (lo hi : Z) :
  0 <= lo -> lo < hi -> hi <= JS.MAX_SAFE_INTEGER ->
  Seeded.length_lt s1 (bytesNeeded (calculateParameters (hi - lo))) = false ->
  Seeded.length_lt s2 (bytesNeeded (calculateParameters (hi - lo))) = false ->
  Seeded.toU8 s1 = Return b1 ->
  Seeded.toU8 s2 = Return b2 ->
  firstn (Z.to_nat (bytesNeeded (calculateParameters (hi - lo)))) b1
  = firstn (Z.to_nat (bytesNeeded (calculateParameters (hi - lo)))) b2 ->
  Seeded.randomSeedNumber s1 (Num (Num.of_Z lo)) (Num (Num.of_Z hi))
  = Seeded.randomSeedNumber s2 (Num (Num.of_Z lo)) (Num (Num.of_Z hi)).
Proof.
  intros Hlo Hlt Hhi Hl1 Hl2 Hu1 Hu2 Hpre.
  rewrite (randomSeedNumber_result s1 b1 lo hi) by assumption.
  rewrite (randomSeedNumber_result s2 b2 lo hi) by assumption.
  unfold candidate. rewrite (reduce_firstn b1 b2 _ Hpre). reflexivity.
Qed.

Lemma randomSeedNumber_prefix_only_witness :
  Seeded.randomSeedNumber (Uint8Array [x03; x07]) (Num (Num.of_Z 1)) (Num (Num.of_Z 6))
  = Seeded.randomSeedNumber (ArrayBuffer [x03; xff; x01]) (Num (Num.of_Z 1)) (Num (Num.of_Z 6)).
Proof.
  apply (randomSeedNumber_prefix_only (Uint8Array [x03; x07]) (ArrayBuffer [x03; xff; x01])
           [x03; x07] [x03; xff; x01] 1 6);
    try safe_lia; reflexivity.
Defined.

(** ** Validation of the bounds *)



(** ** The retry loop around randomSeedNumber *)

Lemma Seeded_loop_not_sentinel (World : Type) (g : generator World)
    (minimum maximum : value) (n : Z) (fuel : nat) :
  forall w v w',
    Seeded.randomNumber_loop World fuel g minimum maximum n w = (Return v, w') ->
    v <> -1.
Proof.
  induction fuel as [|fuel IH]; intros w v w' H; cbn [Seeded.randomNumber_loop] in H.
  - discriminate.
  - destruct (g n w) as [bytes w1].
    destruct (Seeded.randomSeedNumber (Uint8Array bytes) minimum maximum) as [r|e|];
      try discriminate.
    destruct (Z.eqb_spec r (-1)) as [E|NE].
    + eapply IH; eassumption.
    + inversion H; subst. assumption.
Qed.

(** C10. [randomNumber] never hands the -1 of [randomSeedNumber] on: a
    draw answered with -1 is followed by a fresh draw, and what is
    returned in the end is the minimum plus the accepted candidate of one
    of the buffers drawn. *)
Theorem randomNumber_never_returns_sentinel (World : Type)
    (grv : World -> byte * World) (g : generator World) (fuel : nat) (w : World) :
  (forall minimum maximum gen v w',
      Seeded.randomNumber World grv fuel minimum maximum gen w = (Return v, w') ->
      v <> -1)
  /\ (forall minimum maximum n,
         Seeded.randomSeedNumber (Uint8Array (fst (g n w))) minimum maximum = Return (-1) ->
         Seeded.randomNumber_loop World (S fuel) g minimum maximum n w
         = Seeded.randomNumber_loop World fuel g minimum maximum n (snd (g n w)))
  /\ (forall lo hi v w',
         0 <= lo -> lo < hi -> hi <= JS.MAX_SAFE_INTEGER ->
         Seeded.randomNumber World grv fuel (Num (Num.of_Z lo)) (Num (Num.of_Z hi))
           (GenFunction g) w = (Return v, w') ->
         exists k, (k < fuel)%nat /\
           let p := calculateParameters (hi - lo) in
           let bytes := fst (g (bytesNeeded p) (world_after k g (bytesNeeded p) w)) in
           candidate p bytes <= hi - lo /\ v = lo + candidate p bytes).
Proof.
  split; [|split].
  - intros minimum maximum gen v w' H. unfold Seeded.randomNumber in H.
    destruct (generator_default World grv gen) as [| |g0]; try discriminate.
    destruct (Seeded.not_safe_positive (Num.default 1 minimum)); [discriminate|].
    destruct (Seeded.not_safe_positive (Num.default 6 maximum)); [discriminate|].
    destruct (negb _); [discriminate|].
    eapply Seeded_loop_not_sentinel; eassumption.
  - intros minimum maximum n H. cbn [Seeded.randomNumber_loop].
    destruct (g n w) as [bytes w1]. cbn [fst snd] in *.
    rewrite H. reflexivity.
  - intros lo hi v w' Hlo Hlt Hhi H.
    rewrite (Seeded_randomNumber_valid lo hi Hlo Hlt Hhi _ eq_refl) in H.
    apply (Seeded_loop_returns lo hi Hlo Hlt Hhi _ eq_refl) in H.
    destruct H as (_ & k & Hk & Hc). exists k. split; [assumption|exact Hc].
Qed.

(** The range 1..6 (mask 15) on the draws [0x0b], [0x0f], [0x05]: the
    first two give -1 (11 and 15 are above the span 5) and are followed by
    a fresh draw, the third gives 1 + 5. *)
Lemma randomNumber_never_returns_sentinel_witness :
  (Seeded.randomSeedNumber
     (Uint8Array (fst (scripted_source [x0b; x0f; x05] 1 0%nat)))
     (Num (Num.of_Z 1)) (Num (Num.of_Z 6)) = Return (-1)
   /\ Seeded.randomNumber_loop nat 3 (scripted_source [x0b; x0f; x05])
        (Num (Num.of_Z 1)) (Num (Num.of_Z 6)) 1 0%nat
      = Seeded.randomNumber_loop nat 2 (scripted_source [x0b; x0f; x05])
          (Num (Num.of_Z 1)) (Num (Num.of_Z 6)) 1
          (snd (scripted_source [x0b; x0f; x05] 1 0%nat)))
  /\ (Seeded.randomNumber nat (fun w => (x00, w)) 3 (Num (Num.of_Z 1)) (Num (Num.of_Z 6))
        (GenFunction (scripted_source [x0b; x0f; x05])) 0%nat
      = (Return 6, 3%nat)
      /\ 6 <> -1
      /\ exists k, (k < 3)%nat /\
           let p := calculateParameters (6 - 1) in
           let bytes := fst (scripted_source [x0b; x0f; x05] (bytesNeeded p)
                               (world_after k (scripted_source [x0b; x0f; x05])
                                  (bytesNeeded p) 0%nat)) in
           candidate p bytes <= 6 - 1 /\ 6 = 1 + candidate p bytes).
Proof.
  assert (Hsent : Seeded.randomSeedNumber
                    (Uint8Array (fst (scripted_source [x0b; x0f; x05] 1 0%nat)))
                    (Num (Num.of_Z 1)) (Num (Num.of_Z 6)) = Return (-1))
    by (vm_compute; reflexivity).
  assert (Hrun : Seeded.randomNumber nat (fun w => (x00, w)) 3
                   (Num (Num.of_Z 1)) (Num (Num.of_Z 6))
                   (GenFunction (scripted_source [x0b; x0f; x05])) 0%nat
                 = (Return 6, 3%nat))
    by (vm_compute; reflexivity).
  assert (N : 0 <= 1) by lia.
  assert (L : 1 < 6) by lia.
  assert (M : 6 <= JS.MAX_SAFE_INTEGER) by safe_lia.
  pose proof (randomNumber_never_returns_sentinel nat (fun w => (x00, w))
                (scripted_source [x0b; x0f; x05]) 2 0%nat) as (_ & Retry & _).
  pose proof (randomNumber_never_returns_sentinel nat (fun w => (x00, w))
                (scripted_source [x0b; x0f; x05]) 3 0%nat) as (Never & _ & Accepted).
  split; [split|split; [|split]].
  - exact Hsent.
  - exact (Retry (Num (Num.of_Z 1)) (Num (Num.of_Z 6)) 1 Hsent).
  - exact Hrun.
  - exact (Never _ _ _ _ _ Hrun).
  - exact (Accepted 1 6 6 3%nat N L M Hrun).
Defined.

(** ** The result of randomNumber *)

Lemma constant_source_supplies (b : byte) : supplies (constant_source b).
Proof.
  intros n w. unfold constant_source. cbn [fst].
  rewrite repeat_length. lia.
Qed.

Lemma constant_ff_rejected (fuel : nat) :
  accepted_within fuel (constant_source xff) (calculateParameters 4) 4 tt = false.
Proof.
  induction fuel as [|fuel IH].
  - reflexivity.
  - cbn [accepted_within].
    change (snd (constant_source xff (bytesNeeded (calculateParameters 4)) tt)) with tt.
    rewrite IH.
    replace (candidate (calculateParameters 4)
               (fst (constant_source xff (bytesNeeded (calculateParameters 4)) tt)))
      with 15 by (vm_compute; reflexivity).
    reflexivity.
Qed.

(** C1, as stated, fails in two ways that are meant: the revision with
    [randomSeedNumber] refuses negative bounds, and a source whose every
    draw is rejected (span 4, all bytes 255: candidate 15) keeps the loop
    drawing for ever. *)
Lemma randomNumber_in_range_counterexample :
  (safe (-5) /\ safe 5 /\ -5 < 5 /\ supplies (constant_source xff)
   /\ Seeded.randomNumber unit (constant_value xff) 1
        (Num (Num.of_Z (-5))) (Num (Num.of_Z 5)) (GenFunction (constant_source xff)) tt
      = (Throw (Error "MinNotSafePositiveInteger"), tt))
  /\ (safe 0 /\ safe 4 /\ 0 < 4
      /\ ~ exists fuel v w',
             Index.randomNumber unit (constant_value xff) fuel
               (Num (Num.of_Z 0)) (Num (Num.of_Z 4)) (GenFunction (constant_source xff)) tt
             = (Return v, w')).
Proof.
  assert (S5 : safe (-5)) by safe_lia.
  assert (S5' : safe 5) by safe_lia.
  assert (S0 : safe 0) by safe_lia.
  assert (S4 : safe 4) by safe_lia.
  split.
  - refine (conj S5 (conj S5' (conj _ (conj _ _)))).
    + lia.
    + apply constant_source_supplies.
    + reflexivity.
  - refine (conj S0 (conj S4 (conj _ _))); [lia|].
    intros (fuel & v & w' & H).
    rewrite Index_randomNumber_valid in H by (assumption || lia).
    cbv zeta in H.
    replace (JS.sub 4 0) with 4 in H by reflexivity.
    rewrite Index_loop_rejects in H by apply constant_ff_rejected.
    discriminate.
Qed.

Lemma scripted_source_supplies (script : list byte) : supplies (scripted_source script).
Proof.
  intros n w. unfold scripted_source. cbn [fst].
  rewrite repeat_length. lia.
Qed.

(** With accepted bounds and a generator that hands back enough bytes,
    the loop around [randomSeedNumber] is still drawing when the bound is
    reached if no draw was accepted. *)
Lemma Seeded_loop_rejects (World : Type) (g : generator World) (lo hi : Z) (p : params) :
  0 <= lo -> lo < hi -> hi <= JS.MAX_SAFE_INTEGER ->
  p = calculateParameters (hi - lo) ->
  supplies g ->
  forall fuel w,
    accepted_within fuel g p (hi - lo) w = false ->
    Seeded.randomNumber_loop World fuel g (Num (Num.of_Z lo)) (Num (Num.of_Z hi))
      (bytesNeeded p) w
    = (OutOfFuel, world_after fuel g (bytesNeeded p) w).
Proof.
  intros Hlo Hlt Hhi Hp Hsup fuel.
  induction fuel as [|fuel IH]; intros w Hrej.
  - reflexivity.
  - rewrite (Seeded_loop_step lo hi Hlo Hlt Hhi p Hp). cbv zeta.
    cbn [accepted_within] in Hrej. apply orb_false_iff in Hrej.
    destruct Hrej as [Hrej1 Hrej2].
    pose proof (Hsup (bytesNeeded p) w) as Hlen.
    destruct (Z.ltb_spec (Z.of_nat (List.length (fst (g (bytesNeeded p) w))))
                (bytesNeeded p)); [lia|].
    rewrite Hrej1. cbn [andb world_after]. apply IH. assumption.
Qed.

(** C1, amended. For safe bounds with maximum > minimum and a span below
    2^30 (and a minimum that is not negative in the revision with
    [randomSeedNumber], whose generator must hand back at least the bytes
    asked for): whatever [randomNumber] returns lies between the bounds;
    it does return such a value once one of the draws has its candidate
    within the span; and while every draw is rejected it keeps drawing,
    one generator call per pass, and returns nothing. *)
Theorem randomNumber_in_range (World : Type) (grv : World -> byte * World)
    (g : generator World) (fuel : nat) (lo hi : Z) (w : World) :
  safe lo -> safe hi -> lo < hi -> hi - lo < 2 ^ 30 ->
  let p := calculateParameters (hi - lo) in
  let r1 := Index.randomNumber World grv fuel (Num (Num.of_Z lo)) (Num (Num.of_Z hi))
              (GenFunction g) w in
  let r2 := Seeded.randomNumber World grv fuel (Num (Num.of_Z lo)) (Num (Num.of_Z hi))
              (GenFunction g) w in
  (forall v w', r1 = (Return v, w') -> lo <= v <= hi)
  /\ (accepted_within fuel g p (hi - lo) w = true ->
      exists v w', r1 = (Return v, w') /\ lo <= v <= hi)
  /\ (accepted_within fuel g p (hi - lo) w = false ->
      r1 = (OutOfFuel, world_after fuel g (bytesNeeded p) w))
  /\ (0 <= lo ->
      (forall v w', r2 = (Return v, w') -> lo <= v <= hi)
      /\ (supplies g -> accepted_within fuel g p (hi - lo) w = true ->
          exists v w', r2 = (Return v, w') /\ lo <= v <= hi)
      /\ (supplies g -> accepted_within fuel g p (hi - lo) w = false ->
          r2 = (OutOfFuel, world_after fuel g (bytesNeeded p) w))).
Proof.
  intros Hlo Hhi Hlt Hsmall p r1 r2.
  assert (Hsub : JS.sub hi lo = hi - lo) by (apply sub_exact; lia).
  assert (Hmask : exists n, 0 < n <= 31 /\ mask p = Z.ones n).
  { destruct (calculateParameters_small_mask (hi - lo)) as (n & Hn & E & _); [lia|].
    exists n. split; assumption. }
  assert (Hhi' : safe (lo + (hi - lo))) by (replace (lo + (hi - lo)) with hi by lia; assumption).
  assert (E1 : r1 = Index.randomNumber_loop World fuel g lo (hi - lo)
                      (bytesNeeded p) (mask p) w).
  { unfold r1. rewrite Index_randomNumber_valid by assumption.
    cbv zeta. rewrite Hsub. reflexivity. }
  assert (Safe1 : forall v w', r1 = (Return v, w') -> lo <= v <= hi).
  { intros v w' H. rewrite E1 in H.
    apply (Index_loop_safe World g lo (hi - lo) p Hlo Hhi' Hmask) in H. lia. }
  split; [exact Safe1|]. split; [|split].
  - intros Hacc.
    destruct (Index_loop_accepts World g lo (hi - lo) p fuel w Hacc) as (v & w' & H).
    exists v, w'. rewrite <- E1 in H. split; [assumption|]. eapply Safe1; eassumption.
  - intros Hrej. rewrite E1. apply Index_loop_rejects. assumption.
  - intros Hnn.
    assert (Hmax : hi <= JS.MAX_SAFE_INTEGER) by (unfold safe in Hhi; lia).
    assert (E2 : r2 = Seeded.randomNumber_loop World fuel g (Num (Num.of_Z lo))
                        (Num (Num.of_Z hi)) (bytesNeeded p) w).
    { unfold r2. apply (Seeded_randomNumber_valid lo hi Hnn Hlt Hmax p eq_refl). }
    assert (Safe2 : forall v w', r2 = (Return v, w') -> lo <= v <= hi).
    { intros v w' H. rewrite E2 in H.
      apply (Seeded_loop_safe lo hi Hnn Hlt Hmax p eq_refl World g Hsmall) in H.
      assumption. }
    split; [exact Safe2|]. split.
    + intros Hsup Hacc.
      destruct (Seeded_loop_accepts lo hi Hnn Hlt Hmax p eq_refl World g Hsmall Hsup fuel w Hacc)
        as (v & w' & H).
      exists v, w'. rewrite <- E2 in H. split; [assumption|]. eapply Safe2; eassumption.
    + intros Hsup Hrej. rewrite E2.
      apply (Seeded_loop_rejects World g lo hi p Hnn Hlt Hmax eq_refl Hsup). assumption.
Qed.

(** A run with two rejected draws (candidates 63 and 31 for the span 20)
    before the accepted one (20), in both revisions, and the same source
    cut off after the two rejected draws. *)
Lemma randomNumber_in_range_witness :
  ((exists v w',
       Index.randomNumber nat (fun w => (x00, w)) 3 (Num (Num.of_Z 10)) (Num (Num.of_Z 30))
         (GenFunction (scripted_source [xff; x1f; x14])) 0%nat = (Return v, w')
       /\ 10 <= v <= 30)
   /\ (exists v w',
          Seeded.randomNumber nat (fun w => (x00, w)) 3 (Num (Num.of_Z 10)) (Num (Num.of_Z 30))
            (GenFunction (scripted_source [xff; x1f; x14])) 0%nat = (Return v, w')
          /\ 10 <= v <= 30))
  /\ (Index.randomNumber nat (fun w => (x00, w)) 2 (Num (Num.of_Z 10)) (Num (Num.of_Z 30))
        (GenFunction (scripted_source [xff; x1f; x14])) 0%nat
      = (OutOfFuel,
         world_after 2 (scripted_source [xff; x1f; x14])
           (bytesNeeded (calculateParameters (30 - 10))) 0%nat)
      /\ Seeded.randomNumber nat (fun w => (x00, w)) 2 (Num (Num.of_Z 10)) (Num (Num.of_Z 30))
           (GenFunction (scripted_source [xff; x1f; x14])) 0%nat
         = (OutOfFuel,
            world_after 2 (scripted_source [xff; x1f; x14])
              (bytesNeeded (calculateParameters (30 - 10))) 0%nat)).
Proof.
  assert (S10 : safe 10) by safe_lia.
  assert (S30 : safe 30) by safe_lia.
  assert (L : 10 < 30) by lia.
  assert (Sp : 30 - 10 < 2 ^ 30) by lia.
  assert (N : 0 <= 10) by lia.
  pose proof (randomNumber_in_range nat (fun w => (x00, w))
                (scripted_source [xff; x1f; x14]) 3 10 30 0%nat S10 S30 L Sp)
    as (_ & A1 & _ & A2).
  pose proof (randomNumber_in_range nat (fun w => (x00, w))
                (scripted_source [xff; x1f; x14]) 2 10 30 0%nat S10 S30 L Sp)
    as (_ & _ & R1 & R2).
  destruct (A2 N) as (_ & A2' & _). destruct (R2 N) as (_ & _ & R2').
  split; [split|split].
  - apply A1. vm_compute. reflexivity.
  - apply A2'; [apply scripted_source_supplies|vm_compute; reflexivity].
  - apply R1. vm_compute. reflexivity.
  - apply R2'; [apply scripted_source_supplies|vm_compute; reflexivity].
Defined.

(** ** Which bounds pass *)

Lemma not_safe_positive_not_integer (n : number) :
  Num.rem1_nonzero n = true -> Seeded.not_safe_positive (Num n) = true.
Proof.
  intros H. unfold Seeded.not_safe_positive, Seeded.Number_isSafeInteger.
  destruct n as [q| | |]; try reflexivity.
  rewrite H. reflexivity.
Qed.

Lemma not_safe_positive_outside (z : Z) :
  ~ 0 <= z <= JS.MAX_SAFE_INTEGER ->
  Seeded.not_safe_positive (Num (Num.of_Z z)) = true.
Proof.
  intros H.
  destruct (Seeded.not_safe_positive (Num (Num.of_Z z))) eqn:E; [reflexivity|].
  apply not_safe_positive_of_Z in E. contradiction.
Qed.

(** C7, as stated, fails where the two revisions differ and where two
    checks compete: the later revision turns a negative safe integer away,
    and names a fractional bound MinNotSafePositiveInteger; src/index.js
    answers a bound beyond the safe range with MinHigherThanMax when the
    other bound is not above it. *)
Lemma bound_validation_counterexample :
  Seeded.randomNumber unit (constant_value x00) 1
    (Num (Num.of_Z (-5))) (Num (Num.of_Z 6)) (GenFunction (constant_source x00)) tt
  = (Throw (Error "MinNotSafePositiveInteger"), tt)
  /\ Seeded.randomNumber unit (constant_value x00) 1
       (Num (Finite (3 # 2))) (Num (Num.of_Z 6)) (GenFunction (constant_source x00)) tt
     = (Throw (Error "MinNotSafePositiveInteger"), tt)
  /\ Index.randomNumber unit (constant_value x00) 1
       (Num (Num.of_Z (2 ^ 60))) (Num (Num.of_Z 5)) (GenFunction (constant_source x00)) tt
     = (Throw (RangeError "MinHigherThanMax"), tt).
Proof. repeat split. Qed.

(** C7, amended. With a callable generator and numbers as bounds, in
    src/index.js: a minimum that is no integer gives MinNotInteger, else a
    maximum that is no integer MaxNotInteger; integers with
    maximum > minimum of which one lies outside the safe range give the
    RangeError about that bound; safe integers with maximum > minimum,
    negative ones too, reach the sampling loop.  In the revision with
    [randomSeedNumber]: a bound that is no integer, or lies outside
    [0, MAX_SAFE_INTEGER], gives Min/MaxNotSafePositiveInteger; safe
    integers from 0 on with maximum > minimum reach the loop.  Every
    failure leaves the source as it was. *)
Theorem bound_validation (World : Type) (grv : World -> byte * World)
    (g : generator World) (fuel : nat) (w : World) :
  (forall lo hi : number,
      Num.rem1_nonzero lo = true ->
      Index.randomNumber World grv fuel (Num lo) (Num hi) (GenFunction g) w
      = (Throw (RangeError "MinNotInteger"), w))
  /\ (forall lo hi : number,
         Num.rem1_nonzero lo = false -> Num.rem1_nonzero hi = true ->
         Index.randomNumber World grv fuel (Num lo) (Num hi) (GenFunction g) w
         = (Throw (RangeError "MaxNotInteger"), w))
  /\ (forall lo hi : Z,
         lo < hi -> ~ safe lo ->
         Index.randomNumber World grv fuel (Num (Num.of_Z lo)) (Num (Num.of_Z hi))
           (GenFunction g) w
         = (Throw (RangeError Index.msg_min_unsafe), w))
  /\ (forall lo hi : Z,
         lo < hi -> safe lo -> ~ safe hi ->
         Index.randomNumber World grv fuel (Num (Num.of_Z lo)) (Num (Num.of_Z hi))
           (GenFunction g) w
         = (Throw (RangeError Index.msg_max_unsafe), w))
  /\ (forall lo hi : Z,
         lo < hi -> safe lo -> safe hi ->
         Index.randomNumber World grv fuel (Num (Num.of_Z lo)) (Num (Num.of_Z hi))
           (GenFunction g) w
         = Index.randomNumber_loop World fuel g lo (JS.sub hi lo)
             (bytesNeeded (calculateParameters (JS.sub hi lo)))
             (mask (calculateParameters (JS.sub hi lo))) w)
  /\ (forall (lo : number) (maximum : value),
         Num.rem1_nonzero lo = true ->
         Seeded.randomNumber World grv fuel (Num lo) maximum (GenFunction g) w
         = (Throw (Error "MinNotSafePositiveInteger"), w))
  /\ (forall (lo : Z) (maximum : value),
         ~ 0 <= lo <= JS.MAX_SAFE_INTEGER ->
         Seeded.randomNumber World grv fuel (Num (Num.of_Z lo)) maximum (GenFunction g) w
         = (Throw (Error "MinNotSafePositiveInteger"), w))
  /\ (forall (lo : Z) (hi : number),
         0 <= lo <= JS.MAX_SAFE_INTEGER -> Num.rem1_nonzero hi = true ->
         Seeded.randomNumber World grv fuel (Num (Num.of_Z lo)) (Num hi) (GenFunction g) w
         = (Throw (Error "MaxNotSafePositiveInteger"), w))
  /\ (forall lo hi : Z,
         0 <= lo <= JS.MAX_SAFE_INTEGER -> ~ 0 <= hi <= JS.MAX_SAFE_INTEGER ->
         Seeded.randomNumber World grv fuel (Num (Num.of_Z lo)) (Num (Num.of_Z hi))
           (GenFunction g) w
         = (Throw (Error "MaxNotSafePositiveInteger"), w))
  /\ (forall lo hi : Z,
         0 <= lo -> lo < hi -> hi <= JS.MAX_SAFE_INTEGER ->
         Seeded.randomNumber World grv fuel (Num (Num.of_Z lo)) (Num (Num.of_Z hi))
           (GenFunction g) w
         = Seeded.randomNumber_loop World fuel g (Num (Num.of_Z lo)) (Num (Num.of_Z hi))
             (bytesNeeded (calculateParameters (hi - lo))) w).
Proof.
  repeat match goal with |- _ /\ _ => split end.
  - intros lo hi H. unfold Index.randomNumber.
    cbn [Num.default generator_default]. rewrite H. reflexivity.
  - intros lo hi Hlo H. unfold Index.randomNumber.
    cbn [Num.default generator_default]. rewrite Hlo, H. reflexivity.
  - intros lo hi Hlt Hlo. unfold Index.randomNumber.
    cbn [Num.default generator_default].
    rewrite !rem1_of_Z, gt_of_Z.
    destruct (Z.ltb_spec lo hi); [|lia]. cbn [negb].
    destruct (Index.isSafeInteger (Num.of_Z lo)) eqn:E; [|reflexivity].
    apply isSafeInteger_of_Z in E. contradiction.
  - intros lo hi Hlt Hlo Hhi. unfold Index.randomNumber.
    cbn [Num.default generator_default].
    rewrite !rem1_of_Z, gt_of_Z.
    destruct (Z.ltb_spec lo hi); [|lia]. cbn [negb].
    apply isSafeInteger_of_Z in Hlo. rewrite Hlo. cbn [negb].
    destruct (Index.isSafeInteger (Num.of_Z hi)) eqn:E; [|reflexivity].
    apply isSafeInteger_of_Z in E. contradiction.
  - intros lo hi Hlt Hlo Hhi. apply Index_randomNumber_valid; assumption.
  - intros lo maximum H. unfold Seeded.randomNumber.
    cbn [Num.default generator_default].
    rewrite (not_safe_positive_not_integer lo H). reflexivity.
  - intros lo maximum H. unfold Seeded.randomNumber.
    cbn [Num.default generator_default].
    rewrite (not_safe_positive_outside lo H). reflexivity.
  - intros lo hi Hlo H. unfold Seeded.randomNumber.
    cbn [Num.default generator_default].
    apply not_safe_positive_of_Z in Hlo. rewrite Hlo.
    rewrite (not_safe_positive_not_integer hi H). reflexivity.
  - intros lo hi Hlo H. unfold Seeded.randomNumber.
    cbn [Num.default generator_default].
    apply not_safe_positive_of_Z in Hlo. rewrite Hlo.
    rewrite (not_safe_positive_outside hi H). reflexivity.
  - intros lo hi Hlo Hlt Hhi.
    apply (Seeded_randomNumber_valid lo hi Hlo Hlt Hhi _ eq_refl).
Qed.

Lemma bound_validation_witness :
  Index.randomNumber unit (constant_value x00) 1
    (Num (Finite (3 # 2))) (Num (Num.of_Z 6)) (GenFunction (constant_source x00)) tt
  = (Throw (RangeError "MinNotInteger"), tt)
  /\ Index.randomNumber unit (constant_value x00) 1
       (Num (Num.of_Z (-3))) (Num (Num.of_Z 4)) (GenFunction (constant_source x00)) tt
     = Index.randomNumber_loop unit 1 (constant_source x00) (-3) (JS.sub 4 (-3))
         (bytesNeeded (calculateParameters (JS.sub 4 (-3))))
         (mask (calculateParameters (JS.sub 4 (-3)))) tt.
Proof.
  pose proof (bound_validation unit (constant_value x00) (constant_source x00) 1 tt)
    as (H1 & _ & _ & _ & H5 & _).
  split.
  - apply H1. reflexivity.
  - apply H5.
    + lia.
    + safe_lia.
    + safe_lia.
Defined.

(** * Further properties of the code *)

(** ** calculateParameters *)

(** X1. Whatever the range, [calculateParameters] asks for at most 32
    bits and 4 bytes; a positive range needs at least one bit and one
    byte, and a range that is not positive leaves the start values. *)
Theorem calculateParameters_at_most_four_bytes (range : Z) :
  0 <= bitsNeeded (calculateParameters range) <= 32
  /\ 0 <= bytesNeeded (calculateParameters range) <= 4
  /\ (0 < range -> 1 <= bitsNeeded (calculateParameters range)
                   /\ 1 <= bytesNeeded (calculateParameters range))
  /\ (range <= 0 -> calculateParameters range = mkParams 0 0 1).
Proof.
  rewrite calculateParameters_passes.
  pose proof (passes_bound range) as Hb.
  assert (Hk : forall k, (k <= 32)%nat ->
             bitsNeeded (params_after k) = Z.of_nat k
             /\ 0 <= bytesNeeded (params_after k) <= 4
             /\ ((0 < k)%nat -> 1 <= bytesNeeded (params_after k))).
  { intros k Hle.
    destruct (Nat.le_gt_cases k 30) as [Hs|Hl].
    - rewrite params_after_small by assumption. cbn [bitsNeeded bytesNeeded].
      pose proof (Z.div_mod (Z.of_nat k + 7) 8) as Hd.
      pose proof (Z.mod_pos_bound (Z.of_nat k + 7) 8). lia.
    - rewrite params_after_wrapped by lia. cbn [bitsNeeded bytesNeeded]. lia. }
  destruct (Hk (passes range) Hb) as (Hbits & Hbytes & Hpos).
  rewrite Hbits.
  split; [lia|]. split; [assumption|]. split.
  - intros Hr. unfold passes in *.
    destruct (Z.ltb_spec 0 range); [|lia]. split; [lia|]. apply Hpos. lia.
  - intros Hr. unfold passes.
    destruct (Z.ltb_spec 0 range); [lia|]. reflexivity.
Qed.

(** X2. For a size below 2^32 the bit count is the least one that holds
    the size, and the byte count the least one that holds those bits. *)
Theorem calculateParameters_minimal_bits_and_bytes (size : Z) :
  0 <= size < 2 ^ 32 ->
  let p := calculateParameters size in
  size < 2 ^ bitsNeeded p
  /\ (0 < size -> 2 ^ (bitsNeeded p - 1) <= size)
  /\ bitsNeeded p <= 8 * bytesNeeded p < bitsNeeded p + 8.
Proof.
  intros Hs p.
  destruct (calculateParameters_bits_bytes size Hs) as [Hbits Hbytes].
  fold p in Hbits, Hbytes. rewrite Hbits, Hbytes.
  pose proof (bit_length_nonneg size) as Hnn.
  split; [apply bit_length_spec; lia|]. split.
  - apply bit_length_lower.
  - pose proof (Z.div_mod (bit_length size + 7) 8) as Hd.
    pose proof (Z.mod_pos_bound (bit_length size + 7) 8). lia.
Qed.

Lemma calculateParameters_minimal_bits_and_bytes_witness :
  let p := calculateParameters 1000 in
  1000 < 2 ^ bitsNeeded p
  /\ (0 < 1000 -> 2 ^ (bitsNeeded p - 1) <= 1000)
  /\ bitsNeeded p <= 8 * bytesNeeded p < bitsNeeded p + 8.
Proof.
  apply (calculateParameters_minimal_bits_and_bytes 1000). lia.
Defined.

(** X3. For a size between 1 and 2^30 - 1 the mask is a power of two
    minus one, twice the least one that covers the size: it is above the
    size, and the size fills more than a quarter of the mask. *)
Theorem calculateParameters_mask_share (size : Z) :
  0 < size < 2 ^ 30 ->
  let p := calculateParameters size in
  mask p = 2 ^ (bitsNeeded p + 1) - 1
  /\ 2 * size < mask p + 1
  /\ mask p + 1 <= 4 * size.
Proof.
  intros Hs p. unfold p.
  rewrite calculateParameters_small by lia. cbn [mask bitsNeeded].
  pose proof (bit_length_nonneg size) as Hnn.
  pose proof (bit_length_spec size) as Hup.
  pose proof (bit_length_lower size) as Hlow.
  assert (Hpos : 0 < bit_length size).
  { unfold bit_length. destruct (Z.ltb_spec 0 size); [|lia].
    pose proof (Z.log2_nonneg size). lia. }
  assert (E1 : 2 ^ (bit_length size + 1) = 2 * 2 ^ bit_length size).
  { rewrite Z.pow_add_r by lia. lia. }
  assert (E2 : 2 ^ bit_length size = 2 * 2 ^ (bit_length size - 1)).
  { replace (bit_length size) with (bit_length size - 1 + 1) at 1 by lia.
    rewrite Z.pow_add_r by lia. lia. }
  split; [reflexivity|]. lia.
Qed.

Lemma calculateParameters_mask_share_witness :
  let p := calculateParameters 20 in
  mask p = 2 ^ (bitsNeeded p + 1) - 1
  /\ 2 * 20 < mask p + 1
  /\ mask p + 1 <= 4 * 20.
Proof.
  apply (calculateParameters_mask_share 20). lia.
Defined.

(** ** The reduction and the candidate *)

Lemma to_int32_wrapped (x : Z) :
  2 ^ 31 <= x < 2 ^ 32 -> JS.to_int32 x = x - 2 ^ 32.
Proof.
  intros Hx. rewrite <- (to_int32_shift x 1).
  apply to_int32_small. lia.
Qed.

Lemma le_value_bound_4 (bytes : list byte) :
  (List.length bytes <= 4)%nat -> 0 <= le_value bytes < 2 ^ 32.
Proof.
  intros Hlen. pose proof (le_value_bound bytes) as Hb.
  assert (2 ^ (8 * Z.of_nat (List.length bytes)) <= 2 ^ 32)
    by (apply Z.pow_le_mono_r; lia).
  lia.
Qed.

(** X4. On a buffer of at most four bytes the reduction is the
    little-endian value of the buffer when that is below 2^31, and that
    value less 2^32 otherwise (four bytes, top bit of the last one set). *)
Theorem reduce_little_endian_int32 (bytes : list byte) :
  (List.length bytes <= 4)%nat ->
  (le_value bytes < 2 ^ 31 ->
   reduce bytes (Z.of_nat (List.length bytes)) = le_value bytes)
  /\ (2 ^ 31 <= le_value bytes ->
      reduce bytes (Z.of_nat (List.length bytes)) = le_value bytes - 2 ^ 32).
Proof.
  intros Hlen. rewrite reduce_le_value by assumption.
  pose proof (le_value_bound_4 bytes Hlen) as Hb.
  split; intros H.
  - apply to_int32_small. lia.
  - apply to_int32_wrapped. lia.
Qed.

Lemma reduce_little_endian_int32_witness :
  (le_value [x01; x02; x03; xff] < 2 ^ 31 ->
   reduce [x01; x02; x03; xff] (Z.of_nat (List.length [x01; x02; x03; xff]))
   = le_value [x01; x02; x03; xff])
  /\ (2 ^ 31 <= le_value [x01; x02; x03; xff] ->
      reduce [x01; x02; x03; xff] (Z.of_nat (List.length [x01; x02; x03; xff]))
      = le_value [x01; x02; x03; xff] - 2 ^ 32).
Proof.
  apply (reduce_little_endian_int32 [x01; x02; x03; xff]).
  cbn [List.length]. lia.
Defined.

(** X5. For a span below 2^30 and a buffer with at least [bytesNeeded]
    bytes, the masked candidate is the little-endian value of the first
    [bytesNeeded] bytes modulo 2^(bitsNeeded + 1); it lies between 0 and
    the mask. *)
Theorem candidate_little_endian (range : Z) (bytes : list byte) :
  0 <= range < 2 ^ 30 ->
  let p := calculateParameters range in
  bytesNeeded p <= Z.of_nat (List.length bytes) ->
  candidate p bytes
  = le_value (firstn (Z.to_nat (bytesNeeded p)) bytes) mod 2 ^ (bitsNeeded p + 1)
  /\ 0 <= candidate p bytes <= mask p.
Proof.
  intros Hr p Hlen. split.
  - apply candidate_le_value; assumption.
  - destruct (calculateParameters_small_mask range Hr) as (n & Hn & E & _).
    unfold candidate. fold p in E. rewrite E. apply and_ones_bound. assumption.
Qed.

Lemma candidate_little_endian_witness :
  let p := calculateParameters 1000 in
  candidate p [xe8; xff; x07]
  = le_value (firstn (Z.to_nat (bytesNeeded p)) [xe8; xff; x07]) mod 2 ^ (bitsNeeded p + 1)
  /\ 0 <= candidate p [xe8; xff; x07] <= mask p.
Proof.
  apply (candidate_little_endian 1000 [xe8; xff; x07]).
  - lia.
  - vm_compute. discriminate.
Defined.

(** ** Every value of the range can be drawn *)

Lemma byte_of_Z_value (z : Z) : Z.of_N (Byte.to_N (byte_of_Z z)) = z mod 256.
Proof.
  unfold byte_of_Z.
  pose proof (Z.mod_pos_bound z 256 eq_refl) as Hm.
  destruct (Byte.of_N (Z.to_N (z mod 256))) as [b|] eqn:E.
  - apply Byte.to_of_N in E. rewrite E. lia.
  - apply Byte.of_N_None_iff in E. lia.
Qed.

Lemma le_bytes_length (k : nat) : forall z, List.length (le_bytes k z) = k.
Proof. induction k as [|k IH]; intros z; cbn [le_bytes List.length]; auto. Qed.

Lemma le_value_le_bytes (k : nat) :
  forall z, le_value (le_bytes k z) = z mod 2 ^ (8 * Z.of_nat k).
Proof.
  induction k as [|k IH]; intros z; cbn [le_bytes le_value].
  - change (2 ^ (8 * Z.of_nat 0)) with 1. now rewrite Z.mod_1_r.
  - rewrite byte_of_Z_value, IH.
    replace (8 * Z.of_nat (S k)) with (8 + 8 * Z.of_nat k) by lia.
    rewrite Z.pow_add_r by lia. change (2 ^ 8) with 256.
    assert (0 < 2 ^ (8 * Z.of_nat k)) by (apply Z.pow_pos_nonneg; lia).
    rewrite Z.rem_mul_r by lia. lia.
Qed.

(** X6. For bounds the revision with [randomSeedNumber] accepts and a
    span below 2^30, every value of the range is the result for some
    seed: the seed holding [v - minimum] in [bytesNeeded] little-endian
    bytes gives [v]. *)
Theorem randomSeedNumber_reaches_every_value (lo hi v : Z) :
  0 <= lo -> lo < hi -> hi <= JS.MAX_SAFE_INTEGER -> hi - lo < 2 ^ 30 ->
  lo <= v <= hi ->
  Seeded.randomSeedNumber
    (Uint8Array (le_bytes (Z.to_nat (Seeded.bytesNeeded lo hi)) (v - lo)))
    (Num (Num.of_Z lo)) (Num (Num.of_Z hi))
  = Return v.
Proof.
  intros Hlo Hlt Hhi Hsmall Hv.
  assert (Hsub : JS.sub hi lo = hi - lo) by (apply sub_exact; safe_lia).
  unfold Seeded.bytesNeeded. rewrite Hsub.
  set (range := hi - lo) in *.
  assert (Hr : 0 <= range < 2 ^ 30) by lia.
  pose proof (calculateParameters_small range Hr) as Hp.
  pose proof (bit_length_nonneg range) as Hnn.
  pose proof (bit_length_bound range 30) as Hle.
  pose proof (bit_length_spec range) as Hspec.
  set (bits := bit_length range) in *.
  assert (Hbytes : bytesNeeded (calculateParameters range) = (bits + 7) / 8)
    by (rewrite Hp; reflexivity).
  assert (Hbits : bitsNeeded (calculateParameters range) = bits)
    by (rewrite Hp; reflexivity).
  assert (Hk : bits <= 8 * ((bits + 7) / 8) /\ 0 <= (bits + 7) / 8).
  { pose proof (Z.div_mod (bits + 7) 8). pose proof (Z.mod_pos_bound (bits + 7) 8). lia. }
  set (bytes := le_bytes (Z.to_nat (bytesNeeded (calculateParameters range))) (v - lo)).
  assert (Hlen : Z.of_nat (List.length bytes) = bytesNeeded (calculateParameters range)).
  { unfold bytes. rewrite le_bytes_length, Hbytes. lia. }
  assert (Hc : candidate (calculateParameters range) bytes = v - lo).
  { rewrite candidate_le_value by lia.
    rewrite <- Hlen, Nat2Z.id, firstn_all.
    unfold bytes. rewrite le_value_le_bytes, Hbits, Hbytes, Z2Nat.id by lia.
    assert (Hpow : 2 ^ bits <= 2 ^ (8 * ((bits + 7) / 8)))
      by (apply Z.pow_le_mono_r; lia).
    assert (Hpow' : 2 ^ (bits + 1) = 2 * 2 ^ bits)
      by (rewrite Z.pow_add_r by lia; lia).
    rewrite (Z.mod_small (v - lo)) by lia.
    apply Z.mod_small. lia. }
  rewrite (randomSeedNumber_result (Uint8Array bytes) bytes lo hi); try assumption.
  - fold range. rewrite Hc.
    destruct (Z.leb_spec (v - lo) range); [f_equal; lia|lia].
  - fold range. unfold Seeded.length_lt. cbn [Seeded.length_of]. rewrite Hlen.
    apply Z.ltb_irrefl.
  - reflexivity.
Qed.

Lemma randomSeedNumber_reaches_every_value_witness :
  Seeded.randomSeedNumber
    (Uint8Array (le_bytes (Z.to_nat (Seeded.bytesNeeded 10 30)) (17 - 10)))
    (Num (Num.of_Z 10)) (Num (Num.of_Z 30))
  = Return 17.
Proof.
  apply (randomSeedNumber_reaches_every_value 10 30 17); try lia.
  safe_lia.
Defined.

(** ** bytesNeeded *)

Lemma round_nonneg (x : Z) : 0 <= x -> 0 <= JS.round x.
Proof.
  intros Hx. unfold JS.round.
  destruct (Z.abs x <? 2 ^ 53); [assumption|].
  set (e := Z.log2 (Z.abs x) - 52).
  set (q := Z.shiftr (Z.abs x) e).
  assert (Hq : 0 <= q) by (apply Z.shiftr_nonneg, Z.abs_nonneg).
  assert (Hp : 0 <= 2 ^ e) by apply Z.pow_nonneg, Z.lt_le_incl, Z.lt_0_2.
  assert (Hs : 0 <= Z.sgn x) by (apply Z.sgn_nonneg; assumption).
  destruct ((2 ^ (e - 1) <? Z.land (Z.abs x) (Z.ones e))
            || (Z.land (Z.abs x) (Z.ones e) =? 2 ^ (e - 1)) && Z.odd q); nia.
Qed.

Lemma round_nonpos (x : Z) : x <= 0 -> JS.round x <= 0.
Proof.
  intros Hx. unfold JS.round.
  destruct (Z.abs x <? 2 ^ 53); [assumption|].
  set (e := Z.log2 (Z.abs x) - 52).
  set (q := Z.shiftr (Z.abs x) e).
  assert (Hq : 0 <= q) by (apply Z.shiftr_nonneg, Z.abs_nonneg).
  assert (Hp : 0 <= 2 ^ e) by apply Z.pow_nonneg, Z.lt_le_incl, Z.lt_0_2.
  assert (Hs : Z.sgn x <= 0) by (apply Z.sgn_nonpos; assumption).
  destruct ((2 ^ (e - 1) <? Z.land (Z.abs x) (Z.ones e))
            || (Z.land (Z.abs x) (Z.ones e) =? 2 ^ (e - 1)) && Z.odd q); nia.
Qed.

(** X7. [bytesNeeded] checks nothing: on any integers it answers with a
    count from 0 to 4, and with 0 when the maximum is not above the
    minimum. *)
Theorem bytesNeeded_unchecked (min max : Z) :
  0 <= Seeded.bytesNeeded min max <= 4
  /\ (max <= min -> Seeded.bytesNeeded min max = 0).
Proof.
  unfold Seeded.bytesNeeded. split.
  - rewrite calculateParameters_passes.
    pose proof (passes_bound (JS.sub max min)) as Hb.
    destruct (Nat.le_gt_cases (passes (JS.sub max min)) 30) as [Hs|Hl].
    + rewrite params_after_small by assumption. cbn [bytesNeeded].
      pose proof (Z.div_mod (Z.of_nat (passes (JS.sub max min)) + 7) 8).
      pose proof (Z.mod_pos_bound (Z.of_nat (passes (JS.sub max min)) + 7) 8). lia.
    + rewrite params_after_wrapped by lia. cbn [bytesNeeded]. lia.
  - intros Hle.
    assert (Hr : JS.sub max min <= 0) by (apply round_nonpos; lia).
    rewrite calculateParameters_passes. unfold passes.
    destruct (Z.ltb_spec 0 (JS.sub max min)); [lia|]. reflexivity.
Qed.

(** X8. [bytesNeeded] is the length [randomSeedNumber] asks of a seed:
    on accepted bounds a Uint8Array seed is turned away as too short
    exactly when it has fewer than [bytesNeeded(minimum, maximum)] bytes. *)
Theorem randomSeedNumber_length_is_bytesNeeded (data : list byte) (lo hi : Z) :
  0 <= lo -> lo < hi -> hi <= JS.MAX_SAFE_INTEGER ->
  Seeded.randomSeedNumber (Uint8Array data) (Num (Num.of_Z lo)) (Num (Num.of_Z hi))
  = Throw (Error "Seed to short")
  <-> Z.of_nat (List.length data) < Seeded.bytesNeeded lo hi.
Proof.
  intros Hlo Hlt Hhi.
  rewrite (randomSeedNumber_valid lo hi Hlo Hlt Hhi _ eq_refl) by discriminate.
  unfold Seeded.bytesNeeded. rewrite (Seeded_sub_exact lo hi Hlo Hlt Hhi).
  unfold Seeded.length_lt. cbn [Seeded.length_of Seeded.toU8 bind].
  destruct (Z.ltb_spec (Z.of_nat (List.length data))
              (bytesNeeded (calculateParameters (hi - lo)))) as [Hs|Hl].
  - split; [intros _; assumption|reflexivity].
  - split; [|lia].
    destruct (candidate (calculateParameters (hi - lo)) data <=? hi - lo); discriminate.
Qed.

Lemma randomSeedNumber_length_is_bytesNeeded_witness :
  Seeded.randomSeedNumber (Uint8Array [x01]) (Num (Num.of_Z 0)) (Num (Num.of_Z 1000))
  = Throw (Error "Seed to short")
  <-> Z.of_nat (List.length [x01]) < Seeded.bytesNeeded 0 1000.
Proof.
  apply (randomSeedNumber_length_is_bytesNeeded [x01] 0 1000); try lia.
  safe_lia.
Defined.

(** X9. A seed that is no buffer never yields a number.  On accepted
    bounds, [null] and [undefined] make the read of [seed.length] throw a
    TypeError; any other value that is no buffer fails as too short when
    it shows a [length] below [bytesNeeded], and with
    'Expected Uint8Array' from [toU8] otherwise. *)
Theorem randomSeedNumber_rejects_non_buffers (lo hi : Z) :
  0 <= lo -> lo < hi -> hi <= JS.MAX_SAFE_INTEGER ->
  Seeded.randomSeedNumber Nullish (Num (Num.of_Z lo)) (Num (Num.of_Z hi))
  = Throw (TypeError Seeded.msg_no_properties)
  /\ forall len,
       Seeded.randomSeedNumber (NotBuffer len) (Num (Num.of_Z lo)) (Num (Num.of_Z hi))
       = Throw (Error (if Seeded.length_lt (NotBuffer len) (Seeded.bytesNeeded lo hi)
                       then "Seed to short" else "Expected Uint8Array")).
Proof.
  intros Hlo Hlt Hhi. split.
  - unfold Seeded.randomSeedNumber. cbn [Num.default Seeded.value_to_Z].
    assert (Hlo' : Seeded.not_safe_positive (Num (Num.of_Z lo)) = false)
      by (apply not_safe_positive_of_Z; safe_lia).
    assert (Hhi' : Seeded.not_safe_positive (Num (Num.of_Z hi)) = false)
      by (apply not_safe_positive_of_Z; lia).
    rewrite Hlo', Hhi', !to_Z_of_Z.
    destruct (Z.ltb_spec lo hi); [reflexivity|lia].
  - intros len.
    rewrite (randomSeedNumber_valid lo hi Hlo Hlt Hhi _ eq_refl) by discriminate.
    unfold Seeded.bytesNeeded. rewrite (Seeded_sub_exact lo hi Hlo Hlt Hhi).
    destruct (Seeded.length_lt (NotBuffer len)
                (bytesNeeded (calculateParameters (hi - lo)))); reflexivity.
Qed.

(** [null]; a value without [length] (undefined < 1 is false, so [toU8]
    is reached); and a value of length 0. *)
Lemma randomSeedNumber_rejects_non_buffers_witness :
  Seeded.randomSeedNumber Nullish (Num (Num.of_Z 1)) (Num (Num.of_Z 6))
  = Throw (TypeError Seeded.msg_no_properties)
  /\ Seeded.randomSeedNumber (NotBuffer None) (Num (Num.of_Z 1)) (Num (Num.of_Z 6))
     = Throw (Error "Expected Uint8Array")
  /\ Seeded.randomSeedNumber (NotBuffer (Some 0)) (Num (Num.of_Z 1)) (Num (Num.of_Z 6))
     = Throw (Error "Seed to short").
Proof.
  assert (N : 0 <= 1) by lia.
  assert (L : 1 < 6) by lia.
  assert (M : 6 <= JS.MAX_SAFE_INTEGER) by safe_lia.
  pose proof (randomSeedNumber_rejects_non_buffers 1 6 N L M) as (A & B).
  split; [exact A|split].
  - exact (B None).
  - exact (B (Some 0)).
Defined.

(** ** Short buffers *)

Lemma byte_at_nil (i : Z) : byte_at [] i = 0.
Proof.
  unfold byte_at. destruct (i <? 0); [reflexivity|].
  now rewrite nth_error_nil.
Qed.

Lemma reduce_loop_nil (n : nat) : forall i, reduce_loop n i [] 0 = 0.
Proof.
  induction n as [|n IH]; intros i; cbn [reduce_loop].
  - reflexivity.
  - rewrite byte_at_nil.
    replace (JS.or 0 (JS.shl 0 (8 * i))) with 0; [apply IH|].
    unfold JS.shl. change (JS.to_int32 0) with 0.
    rewrite Z.shiftl_0_l. reflexivity.
Qed.

(** X10. src/index.js does not look at the length of what the generator
    hands back: bytes that are missing read as 0, so on valid bounds an
    empty buffer makes [randomNumber] return the minimum at once. *)
Theorem Index_randomNumber_empty_buffer (World : Type) (grv : World -> byte * World)
    (g : generator World) (fuel : nat) (lo hi : Z) (w : World) :
  safe lo -> safe hi -> lo < hi ->
  fst (g (bytesNeeded (calculateParameters (JS.sub hi lo))) w) = [] ->
  Index.randomNumber World grv (S fuel) (Num (Num.of_Z lo)) (Num (Num.of_Z hi))
    (GenFunction g) w
  = (Return lo, snd (g (bytesNeeded (calculateParameters (JS.sub hi lo))) w)).
Proof.
  intros Hlo Hhi Hlt Hnil.
  rewrite Index_randomNumber_valid by assumption. cbv zeta.
  assert (Hr : 0 <= JS.sub hi lo) by (apply round_nonneg; lia).
  remember (calculateParameters (JS.sub hi lo)) as p eqn:Hp.
  cbn [Index.randomNumber_loop].
  destruct (g (bytesNeeded p) w) as [bytes w1]. cbn [fst snd] in *. subst bytes.
  unfold reduce. rewrite reduce_loop_nil.
  replace (JS.and 0 (mask p)) with 0 by (unfold JS.and; reflexivity).
  destruct (Z.leb_spec 0 (JS.sub hi lo)); [|lia].
  rewrite add_exact by safe_lia. f_equal. f_equal. lia.
Qed.

Lemma Index_randomNumber_empty_buffer_witness :
  Index.randomNumber unit (constant_value x00) 1 (Num (Num.of_Z 10)) (Num (Num.of_Z 30))
    (GenFunction (fixed_source [])) tt
  = (Return 10, snd (fixed_source [] (bytesNeeded (calculateParameters (JS.sub 30 10))) tt)).
Proof.
  apply (Index_randomNumber_empty_buffer unit (constant_value x00) (fixed_source []) 0 10 30 tt).
  - safe_lia.
  - safe_lia.
  - lia.
  - reflexivity.
Defined.



(** ** The first accepted draw decides *)

Lemma Index_loop_first_accepted (World : Type) (g : generator World)
    (lo range : Z) (p : params) (k : nat) :
  forall fuel w,
    (k < fuel)%nat ->
    accepted_within k g p range w = false ->
    candidate p (fst (g (bytesNeeded p) (world_after k g (bytesNeeded p) w))) <= range ->
    Index.randomNumber_loop World fuel g lo range (bytesNeeded p) (mask p) w
    = (Return (JS.add lo
                 (candidate p (fst (g (bytesNeeded p) (world_after k g (bytesNeeded p) w))))),
       world_after (S k) g (bytesNeeded p) w).
Proof.
  induction k as [|k IH]; intros fuel w Hk Hrej Hacc.
  - destruct fuel as [|fuel]; [lia|].
    cbn [world_after] in *. cbn [Index.randomNumber_loop].
    destruct (g (bytesNeeded p) w) as [bytes w1]. cbn [fst snd] in *.
    unfold candidate in Hacc |- *.
    destruct (Z.leb_spec (JS.and (reduce bytes (bytesNeeded p)) (mask p)) range);
      [reflexivity|lia].
  - destruct fuel as [|fuel]; [lia|].
    cbn [accepted_within] in Hrej. apply orb_false_iff in Hrej. destruct Hrej as [Hrej1 Hrej2].
    change (world_after (S k) g (bytesNeeded p) w)
      with (world_after k g (bytesNeeded p) (snd (g (bytesNeeded p) w))) in Hacc |- *.
    change (world_after (S (S k)) g (bytesNeeded p) w)
      with (world_after (S k) g (bytesNeeded p) (snd (g (bytesNeeded p) w))).
    specialize (IH fuel (snd (g (bytesNeeded p) w)) ltac:(lia) Hrej2 Hacc).
    cbn [Index.randomNumber_loop].
    destruct (g (bytesNeeded p) w) as [bytes w1]. cbn [fst snd] in *.
    unfold candidate in Hrej1. rewrite Hrej1. exact IH.
Qed.

(** X12. In src/index.js, on valid bounds, the result is decided by the
    first draw whose candidate is within the span: when the first [k]
    draws are rejected and the next one is accepted, [randomNumber]
    returns the minimum plus that candidate, having called the generator
    [k + 1] times, whatever the bound on the passes above [k]. *)
Theorem Index_randomNumber_first_accepted (World : Type) (grv : World -> byte * World)
    (g : generator World) (fuel k : nat) (lo hi : Z) (w : World) :
  safe lo -> safe hi -> lo < hi ->
  let range := JS.sub hi lo in
  let p := calculateParameters range in
  (k < fuel)%nat ->
  accepted_within k g p range w = false ->
  candidate p (fst (g (bytesNeeded p) (world_after k g (bytesNeeded p) w))) <= range ->
  Index.randomNumber World grv fuel (Num (Num.of_Z lo)) (Num (Num.of_Z hi))
    (GenFunction g) w
  = (Return (JS.add lo
               (candidate p (fst (g (bytesNeeded p) (world_after k g (bytesNeeded p) w))))),
     world_after (S k) g (bytesNeeded p) w).
Proof.
  intros Hlo Hhi Hlt range p Hk Hrej Hacc.
  rewrite Index_randomNumber_valid by assumption. cbv zeta.
  apply Index_loop_first_accepted; assumption.
Qed.

(** The range 10..30 (mask 63) on the draws [0xff], [0x1f], [0x14]: the
    candidates 63 and 31 are above the span 20 and passed over, the third
    draw gives 20, after three calls. *)
Lemma Index_randomNumber_first_accepted_witness :
  Index.randomNumber nat (fun w => (x00, w)) 5 (Num (Num.of_Z 10)) (Num (Num.of_Z 30))
    (GenFunction (scripted_source [xff; x1f; x14])) 0%nat
  = (Return (JS.add 10
               (candidate (calculateParameters (JS.sub 30 10))
                  (fst (scripted_source [xff; x1f; x14]
                          (bytesNeeded (calculateParameters (JS.sub 30 10)))
                          (world_after 2 (scripted_source [xff; x1f; x14])
                             (bytesNeeded (calculateParameters (JS.sub 30 10))) 0%nat))))),
     world_after 3 (scripted_source [xff; x1f; x14])
       (bytesNeeded (calculateParameters (JS.sub 30 10))) 0%nat).
Proof.
  apply (Index_randomNumber_first_accepted nat (fun w => (x00, w))
           (scripted_source [xff; x1f; x14]) 5 2 10 30 0%nat).
  - safe_lia.
  - safe_lia.
  - lia.
  - lia.
  - vm_compute. reflexivity.
  - vm_compute. discriminate.
Defined.

(** ** The two revisions side by side *)




(** ** No exception past validation *)

Lemma fill_length (World : Type) (grv : World -> byte * World) (n : nat) :
  forall w, List.length (fst (fill World grv n w)) = n.
Proof.
  induction n as [|n IH]; intros w; cbn [fill].
  - reflexivity.
  - destruct (grv w) as [b w1]. specialize (IH w1).
    destruct (fill World grv n w1) as [rest w2]. cbn [fst List.length] in *. lia.
Qed.

Lemma randomBytes_supplies (World : Type) (grv : World -> byte * World) :
  supplies (randomBytes World grv).
Proof.
  intros n w. unfold randomBytes. rewrite fill_length. lia.
Qed.

Lemma Seeded_loop_no_throw (World : Type) (g : generator World) (lo hi : Z) (p : params) :
  0 <= lo -> lo < hi -> hi <= JS.MAX_SAFE_INTEGER ->
  p = calculateParameters (hi - lo) ->
  supplies g ->
  forall fuel w e w',
    Seeded.randomNumber_loop World fuel g (Num (Num.of_Z lo)) (Num (Num.of_Z hi))
      (bytesNeeded p) w
    <> (Throw e, w').
Proof.
  intros Hlo Hlt Hhi Hp Hsup fuel.
  induction fuel as [|fuel IH]; intros w e w'.
  - discriminate.
  - rewrite (Seeded_loop_step lo hi Hlo Hlt Hhi p Hp). cbv zeta.
    pose proof (Hsup (bytesNeeded p) w) as Hlen.
    destruct (Z.ltb_spec (Z.of_nat (List.length (fst (g (bytesNeeded p) w))))
                (bytesNeeded p)); [lia|].
    destruct (_ && _); [discriminate|apply IH].
Qed.

Lemma Index_loop_no_throw (World : Type) (g : generator World) (lo range n m : Z) :
  forall fuel w e w',
    Index.randomNumber_loop World fuel g lo range n m w <> (Throw e, w').
Proof.
  induction fuel as [|fuel IH]; intros w e w'; cbn [Index.randomNumber_loop].
  - discriminate.
  - destruct (g n w) as [bytes w1].
    destruct (_ <=? _); [discriminate|apply IH].
Qed.

(** X14. Past validation [randomNumber] throws nothing of its own, that
    is, when every call of the generator comes back with a Uint8Array.
    In src/index.js, on valid bounds, this holds for such a generator
    whatever the lengths of its buffers.  In the revision with
    [randomSeedNumber], on accepted bounds, it holds for such a generator
    that hands back at least the bytes asked for, and for the default
    [randomBytes], which fills exactly that many. *)
Theorem randomNumber_throws_nothing (World : Type) (grv : World -> byte * World)
    (fuel : nat) (lo hi : Z) (w : World) :
  safe lo -> safe hi -> lo < hi ->
  (forall gen e w', gen <> GenNotFunction ->
      Index.randomNumber World grv fuel (Num (Num.of_Z lo)) (Num (Num.of_Z hi)) gen w
      <> (Throw e, w'))
  /\ (0 <= lo ->
      (forall g e w', supplies g ->
          Seeded.randomNumber World grv fuel (Num (Num.of_Z lo)) (Num (Num.of_Z hi))
            (GenFunction g) w
          <> (Throw e, w'))
      /\ (forall e w',
             Seeded.randomNumber World grv fuel (Num (Num.of_Z lo)) (Num (Num.of_Z hi))
               GenUndefined w
             <> (Throw e, w'))).
Proof.
  intros Hlo Hhi Hlt. split.
  - intros gen e w' Hgen.
    assert (Hg : exists g, forall mi ma, Index.randomNumber World grv fuel mi ma gen w
                   = Index.randomNumber World grv fuel mi ma (GenFunction g) w).
    { destruct gen as [| |g]; [eexists; reflexivity|contradiction|eexists; reflexivity]. }
    destruct Hg as [g Hg]. rewrite Hg.
    rewrite Index_randomNumber_valid by assumption. cbv zeta.
    apply Index_loop_no_throw.
  - intros Hnn.
    assert (Hmax : hi <= JS.MAX_SAFE_INTEGER) by (unfold safe in Hhi; lia).
    assert (Hgen : forall g e w', supplies g ->
               Seeded.randomNumber World grv fuel (Num (Num.of_Z lo)) (Num (Num.of_Z hi))
                 (GenFunction g) w <> (Throw e, w')).
    { intros g e w' Hsup.
      remember (calculateParameters (hi - lo)) as p eqn:Hp.
      rewrite (Seeded_randomNumber_valid lo hi Hnn Hlt Hmax p Hp).
      apply Seeded_loop_no_throw; assumption. }
    split; [exact Hgen|].
    intros e w'.
    apply (Hgen (randomBytes World grv) e w'). apply randomBytes_supplies.
Qed.

Lemma randomNumber_throws_nothing_witness :
  (safe 1 /\ safe 6 /\ 1 < 6 /\ 0 <= 1)
  /\ forall e w',
       Seeded.randomNumber unit (constant_value xff) 5 (Num (Num.of_Z 1)) (Num (Num.of_Z 6))
         GenUndefined tt
       <> (Throw e, w').
Proof.
  assert (S1 : safe 1) by safe_lia.
  assert (S6 : safe 6) by safe_lia.
  assert (L : 1 < 6) by lia.
  assert (N : 0 <= 1) by lia.
  split; [exact (conj S1 (conj S6 (conj L N)))|].
  exact (proj2 (proj2 (randomNumber_throws_nothing unit (constant_value xff) 5 1 6 tt
                         S1 S6 L) N)).
Defined.

(** ** The two ways of testing for a safe integer *)

(** X15. The integer test [n % 1] followed by the hand-written
    [isSafeInteger] of src/index.js accepts exactly the numbers that
    [Number.isSafeInteger] of the later revision accepts; alone,
    [isSafeInteger] lets NaN through. *)
Theorem safe_integer_checks_agree (n : number) :
  Seeded.Number_isSafeInteger (Num n)
  = negb (Num.rem1_nonzero n) && Index.isSafeInteger n
  /\ Index.isSafeInteger NaN = true.
Proof.
  split; [|reflexivity].
  destruct n as [q| | |]; try reflexivity.
  unfold Seeded.Number_isSafeInteger.
  destruct (Num.rem1_nonzero (Finite q)) eqn:Hrem; [reflexivity|].
  cbn [negb andb].
  unfold Num.rem1_nonzero in Hrem. apply negb_false_iff in Hrem.
  apply Z.eqb_eq in Hrem.
  unfold Index.isSafeInteger, Num.gt, Num.lt, Num.of_Z, Num.to_Z, JS.MAX_SAFE_INTEGER.
  destruct q as [num den]. cbn [Qnum Qden inject_Z] in *.
  assert (Hnum : num = Z.pos den * (num / Z.pos den))
    by (apply Z.div_exact; [lia|assumption]).
  set (k := num / Z.pos den) in *.
  rewrite Hnum.
  assert (Hden : 0 < Z.pos den) by lia.
  assert (A1 : (Z.pos den * k * 1 <? Z.opp 9007199254740991 * Z.pos den)
               = (k <? Z.opp 9007199254740991)).
  { destruct (Z.ltb_spec (Z.pos den * k * 1) (Z.opp 9007199254740991 * Z.pos den));
      destruct (Z.ltb_spec k (Z.opp 9007199254740991)); try reflexivity; exfalso; nia. }
  assert (A2 : (9007199254740991 * Z.pos den <? Z.pos den * k * 1)
               = (9007199254740991 <? k)).
  { destruct (Z.ltb_spec (9007199254740991 * Z.pos den) (Z.pos den * k * 1));
      destruct (Z.ltb_spec 9007199254740991 k); try reflexivity; exfalso; nia. }
  rewrite A1, A2.
  destruct (Z.leb_spec (Z.abs k) 9007199254740991);
    destruct (Z.ltb_spec k (Z.opp 9007199254740991));
    destruct (Z.ltb_spec 9007199254740991 k);
    cbn [orb negb]; try reflexivity; lia.
Qed.

(** ** ArrayBuffer seeds *)

Lemma candidate_nil (p : params) : candidate p [] = 0.
Proof.
  unfold candidate, reduce. rewrite reduce_loop_nil. reflexivity.
Qed.

(** X16. An ArrayBuffer has no [length], so [randomSeedNumber] never
    finds one too short: on accepted bounds it does not throw for any
    ArrayBuffer, and an empty one, whose bytes all read as 0, gives the
    minimum. *)
Theorem randomSeedNumber_ArrayBuffer_never_too_short (data : list byte) (lo hi : Z) :
  0 <= lo -> lo < hi -> hi <= JS.MAX_SAFE_INTEGER ->
  (exists v, Seeded.randomSeedNumber (ArrayBuffer data)
               (Num (Num.of_Z lo)) (Num (Num.of_Z hi)) = Return v)
  /\ Seeded.randomSeedNumber (ArrayBuffer []) (Num (Num.of_Z lo)) (Num (Num.of_Z hi))
     = Return lo.
Proof.
  intros Hlo Hlt Hhi. split.
  - rewrite (randomSeedNumber_result (ArrayBuffer data) data lo hi)
      by (assumption || reflexivity).
    eexists. reflexivity.
  - rewrite (randomSeedNumber_result (ArrayBuffer []) [] lo hi)
      by (assumption || reflexivity).
    rewrite candidate_nil.
    destruct (Z.leb_spec 0 (hi - lo)); [|lia]. f_equal. lia.
Qed.

Lemma randomSeedNumber_ArrayBuffer_never_too_short_witness :
  (exists v, Seeded.randomSeedNumber (ArrayBuffer [x09])
               (Num (Num.of_Z 0)) (Num (Num.of_Z 100000)) = Return v)
  /\ Seeded.randomSeedNumber (ArrayBuffer []) (Num (Num.of_Z 0)) (Num (Num.of_Z 100000))
     = Return 0.
Proof.
  apply (randomSeedNumber_ArrayBuffer_never_too_short [x09] 0 100000); try lia.
  safe_lia.
Defined.

(** ** Which seeds give which value *)

(** X17. For accepted bounds with a span below 2^30 and a value [v] of
    the range, the Uint8Array seeds of sufficient length that give [v]
    are exactly those whose first [bytesNeeded] bytes, read little-endian
    and cut to [bitsNeeded + 1] bits, hold [v - minimum]: every value has
    its own, equally large, set of seeds. *)
Theorem randomSeedNumber_seeds_of_a_value (data : list byte) (lo hi v : Z) :
  0 <= lo -> lo < hi -> hi <= JS.MAX_SAFE_INTEGER -> hi - lo < 2 ^ 30 ->
  lo <= v <= hi ->
  Seeded.bytesNeeded lo hi <= Z.of_nat (List.length data) ->
  Seeded.randomSeedNumber (Uint8Array data) (Num (Num.of_Z lo)) (Num (Num.of_Z hi))
  = Return v
  <-> le_value (firstn (Z.to_nat (Seeded.bytesNeeded lo hi)) data)
      mod 2 ^ (bitsNeeded (calculateParameters (hi - lo)) + 1)
      = v - lo.
Proof.
  intros Hlo Hlt Hhi Hsmall Hv.
  unfold Seeded.bytesNeeded. rewrite (Seeded_sub_exact lo hi Hlo Hlt Hhi).
  intros Hlen.
  rewrite <- candidate_le_value by lia.
  rewrite (randomSeedNumber_result (Uint8Array data) data lo hi); try assumption.
  - destruct (Z.leb_spec (candidate (calculateParameters (hi - lo)) data) (hi - lo)).
    + split; intros Heq; [inversion Heq; lia|f_equal; lia].
    + split; intros Heq; [inversion Heq; lia|lia].
  - unfold Seeded.length_lt. cbn [Seeded.length_of].
    apply Z.ltb_ge. assumption.
  - reflexivity.
Qed.

Lemma randomSeedNumber_seeds_of_a_value_witness :
  Seeded.randomSeedNumber (Uint8Array [x47; x00]) (Num (Num.of_Z 10)) (Num (Num.of_Z 30))
  = Return 17
  <-> le_value (firstn (Z.to_nat (Seeded.bytesNeeded 10 30)) [x47; x00])
      mod 2 ^ (bitsNeeded (calculateParameters (30 - 10)) + 1)
      = 17 - 10.
Proof.
  apply (randomSeedNumber_seeds_of_a_value [x47; x00] 10 30 17); try lia.
  - safe_lia.
  - vm_compute. discriminate.
Defined.

(** ** Spans beyond 32 bits *)

(** X18. [range >>> 1] keeps the low 32 bits only: two positive ranges
    that agree modulo 2^32 get the same parameters, so a span of
    2^32 + s is sized like the span s + 2^32 * k for every k. *)
Theorem calculateParameters_low_32_bits (r1 r2 : Z) :
  0 < r1 -> 0 < r2 -> r1 mod 2 ^ 32 = r2 mod 2 ^ 32 ->
  calculateParameters r1 = calculateParameters r2.
Proof.
  intros H1 H2 Hmod.
  rewrite !calculateParameters_passes. f_equal.
  unfold passes.
  destruct (Z.ltb_spec 0 r1); [|lia].
  destruct (Z.ltb_spec 0 r2); [|lia].
  now rewrite !ushr_1, Hmod.
Qed.

Lemma calculateParameters_low_32_bits_witness :
  calculateParameters (2 ^ 32 + 5) = calculateParameters 5.
Proof.
  apply (calculateParameters_low_32_bits (2 ^ 32 + 5) 5).
  - lia.
  - lia.
  - reflexivity.
Defined.
